(** * hc: the holochain peer command line interface (cmd/hc/hc.go)

    A shallow embedding of the command actions of [hc.go] and of the chain
    lifecycle they drive.

    [hc.go] is a client of the package [github.com/metacurrency/holochain]
    (imported as [holo]).  Every call into that package is a field of the
    record [Library]: an operation on an abstract [World] (the holochain
    directory on disk together with the state of the loaded service).  The
    command actions are written once, over an arbitrary [Library], in a
    state-and-trace monad: each library call, each [go] statement and the call
    of [serve] leaves an [Event] in the trace, in program order.

    Text written with [fmt.Printf] is not part of the model, except for the
    output of [dump], whose items are kept as structured values. *)

From stdpp Require Import gmap strings list fin_maps.
From Stdlib Require Import ZArith Strings.Byte.

Local Open Scope string_scope.
Local Open Scope list_scope.

(** ** Go values *)

(** The error kinds of the taxonomy. *)
Inductive ErrorKind :=
| MalformedDNAError
| AlreadyInitializedError
| NotSeededError
| DuplicateNameError
| NotFoundError
| CorruptChainError.

#[global] Instance ErrorKind_eq_dec : EqDecision ErrorKind.
Proof. solve_decision. Defined.

(** A non-nil Go [error].  [Error] is the text returned by the method
    [Error()]; [Kind] is the kind of the taxonomy the value belongs to, and
    is [None] for a value made by [errors.New] or [fmt.Errorf], which carries
    a text and nothing else. *)
Record GoError := mkError { Kind : option ErrorKind; Error : string }.

#[global] Instance GoError_eq_dec : EqDecision GoError.
Proof. solve_decision. Defined.

(** A Go [error]: [None] is [nil]. *)
Definition error := option GoError.

Definition errors_New (text : string) : error :=
  Some {| Kind := None; Error := text |}.

Definition is_nil (e : error) : bool :=
  match e with None => true | Some _ => false end.

(** [holo.Hash].  Equality is byte equality. *)
Definition Hash := string.

(** [holo.Header], with the fields [dump] reads. *)
Record Header := mkHeader {
  Type' : string;
  Time : Z;
  HeaderLink : option Hash;
  TypeLink : option Hash;
  EntryLink : Hash
}.

#[global] Instance Header_eq_dec : EqDecision Header.
Proof. solve_decision. Defined.

(** The zero value of [holo.Header], which a Go map yields for a missing key. *)
Definition zeroHeader : Header :=
  {| Type' := ""; Time := 0; HeaderLink := None; TypeLink := None; EntryLink := "" |}.

(** Modelled from the spec: [holo.KeyEntry] is declared in the library
    package; the data model describes it as identity key material. *)
Record KeyEntry := mkKeyEntry { KeyMaterial : list byte }.

(** The [interface{}] value handed to the walk callback, by dynamic type. *)
Inductive Entry :=
| EntryNil
| EntryBytes (b : list byte)
| EntryKey (k : KeyEntry)
| EntryOther (payload : string).

(** What an action does: it returns an [error], or a run-time panic (an index
    out of range, a failed type assertion) ends it. *)
Inductive Result :=
| Returned (e : error)
| Panicked.

(** What [dump] prints for the entry of a header: the bytes as a string
    ([string(e.([]byte))] under [%s]), the key entry as a struct
    ([e.(holo.KeyEntry)] under [%v]), or the value as it is ([%v]). *)
Inductive Rendered :=
| RawBytes (text : string)
| KeyFields (k : KeyEntry)
| Generic (e : Entry).

(** ** Events *)

Inductive Event :=
| EvLoadService (ok : bool)
| EvInit (agent : string) (ok : bool)
| EvRemoveAll (path : string) (ok : bool)
| EvClone (src dst : string) (new : bool) (ok : bool)
| EvGenDev (path format : string) (ok : bool)
| EvConfiguredChains
| EvLoad (name : string) (ok : bool)
| EvGenDNAHashes (h : string) (ok : bool)
| EvEncodeDNA (h : string) (ok : bool)
| EvSum (h : string) (ok : bool)
| EvActivate (h : string) (ok : bool)
| EvGenChain (h : string) (ok : bool)
| EvID (h : string) (ok : bool)
| EvReset (h : string) (ok : bool)
| EvTest (h : string) (failures : nat)
| EvWalk (h : string) (entriesToo : bool) (ok : bool)
| EvCall (h zome function args : string) (ok : bool)
| EvBSpost (h : string) (ok : bool)
| EvGoHandlePutReqs (h : string)
| EvGoGossip (h : string) (interval : Z)
| EvServe (h : string) (port : string)
| EvChainLine (k sid : string)
| EvDumpChain (id : Hash)
| EvDumpHeader (k : string) (hdr : Header)
| EvDumpEntry (r : Rendered).

(** ** The library interface

    A loaded [*holo.Holochain] is named by the string it was loaded under.
    [Walk] answers with the triples it hands to the callback, in order, and
    its own result; this is all a callback that always returns [nil] (the one
    of [dump]) can observe of a walk that returns. *)
Inductive Service := nilService | loadedService.

Definition Visit : Type := Hash * Header * Entry.

Record Library := {
  World : Type;
  DefaultDirectoryName : string;
  DNAEntryType : string;
  KeyEntryType : string;
  HashString : Hash → string;
  IsInitialized : string → World → bool;
  LoadService : string → World → error * World;
  Init : string → string → World → error * World;
  RemoveAll : string → World → error * World;
  Clone : Service → string → string → bool → World → error * World;
  GenDev : Service → string → string → World → error * World;
  ConfiguredChains : Service → World → list string;
  Load : Service → string → World → error * World;
  Name : string → World → string;
  GenDNAHashes : string → World → error * World;
  EncodeDNA : string → World → (list byte * error) * World;
  Sum : string → list byte → World → (Hash * error) * World;
  Activate : string → World → error * World;
  GenChain : string → World → error * World;
  ID : string → World → (Hash * error) * World;
  Reset : string → World → error * World;
  Test : string → World → list GoError * World;
  Walk : string → bool → World → (list Visit * error) * World;
  Call : string → string → string → string → World → error * World;
  BSpost : string → World → error * World
}.

(** ** The command actions *)

(** The variables shared by the closures of [setupApp], as [app.Before] and
    the flag parser leave them. *)
Record Globals := {
  force : bool;
  verbose : bool;
  root : string;
  service : Service;
  initialized : bool
}.

(** [c.Args()] and [os.Args]. *)
Record Context := { Args : list string; osArgs : list string }.

(** [c.Args().First()] *)
Definition First (a : list string) : string := default "" (head a).

(** The variable [uninitialized]: [app.Before] sets it when the service is
    not initialized, and it is [nil] otherwise. *)
Definition uninitialized (g : Globals) : error :=
  if initialized g then None
  else errors_New "service not initialized, run 'hc init'".

Definition checkForName (g : Globals) (c : Context) (cmd : string) : string * error :=
  if negb (initialized g) then ("", uninitialized g)
  else
    let name := First (Args c) in
    if String.eqb name "" then
      (name, errors_New ("missing required holochain-name argument to " +:+ cmd))
    else (name, None).

(** The text [dump] and [serve] compare the error of [ID] with. *)
Definition uninitialized_id_text : string :=
  "holochain: Meta key 'id' uninitialized".

Section Client.
Context (L : Library).

  (** State and trace: a computation takes the world and gives back its
      value, the new world and the events it left, oldest first. *)
Definition M (A : Type) : Type := World L → A * World L * list Event.

#[global] Instance M_ret : MRet M := λ A a w, (a, w, []).
#[global] Instance M_bind : MBind M := λ A B f m w,
    let '(a, w1, t1) := m w in
    let '(b, w2, t2) := f a w1 in
    (b, w2, t1 ++ t2).

Definition emit (e : Event) : M unit := λ w, (tt, w, [e]).

  (** A library call whose only result is an [error]. *)
Definition call (f : World L → error * World L) (ev : bool → Event) : M error :=
    λ w, let '(e, w') := f w in (e, w', [ev (is_nil e)]).

  (** A library call with a value and an [error]. *)
Definition call2 {A} (f : World L → (A * error) * World L) (ev : bool → Event)
    : M (A * error) :=
    λ w, let '(r, w') := f w in (r, w', [ev (is_nil (snd r))]).

  (** Reading the library's state leaves no event. *)
Definition read {A} (f : World L → A) : M A := λ w, (f w, w, []).

  (** [if err != nil { return err }], then the rest. *)
Definition guard (e : error) (k : M Result) : M Result :=
    match e with
    | Some _ => mret (Returned e)
    | None => k
    end.

Definition getHolochain (g : Globals) (c : Context) (cmd : string) : M (string * error) :=
    let '(name, err) := checkForName g c cmd in
    match err with
    | Some _ => mret (name, err)
    | None =>
        err ← call (Load L (service g) name) (EvLoad name);
        mret (name, err)
    end.

Definition genChain (service : Service) (name : string) : M error :=
    err ← call (Load L service name) (EvLoad name);
    match err with Some _ => mret err | None =>
    let h := name in
    err ← call (GenDNAHashes L h) (EvGenDNAHashes h);
    match err with Some _ => mret err | None =>
    err ← call (Activate L h) (EvActivate h);
    match err with Some _ => mret err | None =>
    err ← call (GenChain L h) (EvGenChain h);
    match err with Some _ => mret err | None =>
    emit (EvGoHandlePutReqs h);;
    '(id, err) ← call2 (ID L h) (EvID h);
    match err with Some _ => mret err | None =>
    mret None
    end end end end end.

  (** [for k := range chains { ... }] *)
Fixpoint listChains_loop (chains : list string) : M unit :=
    match chains with
    | [] => mret tt
    | k :: rest =>
        '(id, err) ← call2 (ID L k) (EvID k);
        emit (EvChainLine k (if is_nil err then HashString L id else "<not-started>"));;
        listChains_loop rest
    end.

Definition listChains (s : Service) : M unit :=
    emit EvConfiguredChains;;
    chains ← read (ConfiguredChains L s);
    listChains_loop chains.

  (** *** clone *)
Definition clone (g : Globals) (c : Context) : M Result :=
    let srcPath := First (Args c) in
    if String.eqb srcPath "" then
      mret (Returned (errors_New "clone: missing required source path argument"))
    else if Nat.eqb (length (Args c)) 1 then
      mret (Returned (errors_New "clone: missing required holochain-name argument"))
    else
      match Args c !! 1%nat with
      | None => mret Panicked
      | Some name =>
          e ← (if force g
               then call (RemoveAll L (root g +:+ "/" +:+ name))
                         (EvRemoveAll (root g +:+ "/" +:+ name))
               else mret None);
          guard e (
            err ← call (Clone L (service g) srcPath (root g +:+ "/" +:+ name) true)
                       (EvClone srcPath (root g +:+ "/" +:+ name) true);
            mret (Returned err))
      end.

  (** *** join *)
Definition join (g : Globals) (c : Context) : M Result :=
    let srcPath := First (Args c) in
    if String.eqb srcPath "" then
      mret (Returned (errors_New "join: missing required source path argument"))
    else if Nat.eqb (length (Args c)) 1 then
      mret (Returned (errors_New "join: missing required holochain-name argument"))
    else
      match Args c !! 1%nat with
      | None => mret Panicked
      | Some name =>
          err ← call (Clone L (service g) srcPath (root g +:+ "/" +:+ name) false)
                     (EvClone srcPath (root g +:+ "/" +:+ name) false);
          match err with
          | None => err ← genChain (service g) name; mret (Returned err)
          | Some _ => mret (Returned err)
          end
      end.

  (** *** seed *)
Definition seed (g : Globals) (c : Context) : M Result :=
    '(h, err) ← getHolochain g c "seed";
    guard err (
      err ← call (GenDNAHashes L h) (EvGenDNAHashes h);
      guard err (
        '(buf, err) ← call2 (EncodeDNA L h) (EvEncodeDNA h);
        guard err (
          '(hash, err) ← call2 (Sum L h buf) (EvSum h);
          mret (Returned err)))).

  (** *** dev *)
Definition dev (g : Globals) (c : Context) : M Result :=
    let '(name, err) := checkForName g c "dev" in
    guard err (
      let continue (format : string) : M Result :=
        e ← (if force g
             then call (RemoveAll L (root g +:+ "/" +:+ name))
                       (EvRemoveAll (root g +:+ "/" +:+ name))
             else mret None);
        guard e (
          err ← call (GenDev L (service g) (root g +:+ "/" +:+ name) format)
                     (EvGenDev (root g +:+ "/" +:+ name) format);
          mret (Returned err)) in
      if Nat.eqb (length (Args c)) 2 then
        match Args c !! 1%nat with
        | None => mret Panicked
        | Some format =>
            if negb (String.eqb format "json" || String.eqb format "yaml"
                     || String.eqb format "toml")
            then mret (Returned (errors_New "gen dev: format must be one of yaml,toml,json"))
            else continue format
        end
      else continue "toml").

  (** *** gen keys *)
Definition gen_keys (g : Globals) (c : Context) : M Result :=
    mret (Returned (errors_New "not yet implemented")).

  (** *** gen chain *)
Definition gen_chain (g : Globals) (c : Context) : M Result :=
    let '(name, err) := checkForName g c "gen chain" in
    guard err (
      err ← genChain (service g) name;
      mret (Returned err)).

  (** *** init *)
Definition init (g : Globals) (c : Context) : M Result :=
    let agent := First (Args c) in
    if String.eqb agent "" then
      mret (Returned (errors_New "missing required agent-id argument to init"))
    else
      err ← call (Init L (root g) agent) (EvInit agent);
      mret (Returned err).

  (** *** dump *)

  (** The maps and the counter the walk callback of [dump] fills. *)
Record DumpState := {
    links : gmap string Header;
    index : gmap nat string;
    entries : gmap nat Entry;
    idx : nat
  }.

Definition dump_init : DumpState :=
    {| links := ∅; index := ∅; entries := ∅; idx := 0 |}.

  (** The callback handed to [h.Walk]. *)
Definition dump_visit (key : Hash) (header : Header) (entry : Entry)
      (s : DumpState) : DumpState * error :=
    let ks := HashString L key in
    ({| index := <[idx s := ks]> (index s);
        links := <[ks := header]> (links s);
        entries := <[idx s := entry]> (entries s);
        idx := S (idx s) |}, None).

  (** The walk calls its callback on each triple in turn, and stops at the
      first call that returns an error. *)
Fixpoint feed {A : Type} (fn : Hash → Header → Entry → A → A * error)
      (vs : list Visit) (s : A) : A :=
    match vs with
    | [] => s
    | (k, hdr, e) :: vs' =>
        let '(s', err) := fn k hdr e s in
        match err with
        | None => feed fn vs' s'
        | Some _ => s'
        end
    end.

  (** The [switch hdr.Type] of the print loop.  [None] is the panic of a
      type assertion on a value of another dynamic type. *)
Definition render (hdr : Header) (e : Entry) : option Rendered :=
    if String.eqb (Type' hdr) (DNAEntryType L) then
      match e with
      | EntryBytes b => Some (RawBytes (String.string_of_list_byte b))
      | _ => None
      end
    else if String.eqb (Type' hdr) (KeyEntryType L) then
      match e with
      | EntryKey k => Some (KeyFields k)
      | _ => None
      end
    else Some (Generic e).

  (** [for i := 0; i < idx; i++ { ... }], over the values of [i] left. *)
Fixpoint dump_loop (s : DumpState) (js : list nat) : list Event * Result :=
    match js with
    | [] => ([], Returned None)
    | i :: js' =>
        let k := default "" (index s !! i) in
        let hdr := default zeroHeader (links s !! k) in
        let e := default EntryNil (entries s !! i) in
        match render hdr e with
        | None => ([EvDumpHeader k hdr], Panicked)
        | Some r =>
            let '(evs, res) := dump_loop s js' in
            (EvDumpHeader k hdr :: EvDumpEntry r :: evs, res)
        end
    end.

Definition dump (g : Globals) (c : Context) : M Result :=
    '(h, err) ← getHolochain g c "dump";
    guard err (
      '(id, err) ← call2 (ID L h) (EvID h);
      match err with
      | Some e =>
          if String.eqb (Error e) uninitialized_id_text
          then mret (Returned (errors_New "No data to dump, chain not yet initialized."))
          else mret (Returned err)
      | None =>
          emit (EvDumpChain id);;
          ('(vs, err) ← call2 (Walk L h true) (EvWalk h true);
           let s := feed dump_visit vs dump_init in
           ((λ w, let '(evs, res) := dump_loop s (seq 0 (idx s)) in (res, w, evs))
              : M Result))
      end).

  (** *** test *)
Definition test (g : Globals) (c : Context) : M Result :=
    '(h, err) ← getHolochain g c "test";
    guard err (
      err ← (if force g then call (Reset L h) (EvReset h) else mret None);
      guard err (
        err ← call (Activate L h) (EvActivate h);
        guard err (
          errs ← (λ w, let '(errs, w') := Test L h w in
                       (errs, w', [EvTest h (length errs)]));
          let s := foldl (λ s e, s +:+ Error e) "" errs in
          mret (Returned (errors_New s))))).

  (** *** status *)
Definition status (g : Globals) (c : Context) : M Result :=
    if negb (initialized g) then mret (Returned (uninitialized g))
    else listChains (service g);; mret (Returned None).

  (** *** call *)
Definition call_cmd (g : Globals) (c : Context) : M Result :=
    '(h, err) ← getHolochain g c "call";
    guard err (
      match osArgs c !! 3%nat, osArgs c !! 4%nat with
      | Some zome, Some function =>
          let args := drop 5 (osArgs c) in
          err ← call (Call L h zome function (String.concat " " args))
                     (EvCall h zome function (String.concat " " args));
          guard err (mret (Returned None))
      | _, _ => mret Panicked
      end).

  (** *** bs *)
Definition bs (g : Globals) (c : Context) : M Result :=
    '(h, err) ← getHolochain g c "bs";
    guard err (
      err ← call (BSpost L h) (EvBSpost h);
      mret (Returned err)).

  (** *** serve *)
Definition serve (g : Globals) (c : Context) : M Result :=
    '(h, err) ← getHolochain g c "serve";
    guard err (
      '(id, err) ← call2 (ID L h) (EvID h);
      match err with
      | Some e =>
          if String.eqb (Error e) uninitialized_id_text
          then hname ← read (Name L h);
               mret (Returned (errors_New
                 ("Can't serve an un-started chain. Run 'gen chain " +:+ hname
                  +:+ "' to generate genesis entries and start the chain.")))
          else mret (Returned err)
      | None =>
          match (if Nat.eqb (length (Args c)) 1 then Some "3141"
                 else Args c !! 1%nat) with
          | None => mret Panicked
          | Some port =>
              err ← call (Activate L h) (EvActivate h);
              guard err (
                emit (EvGoHandlePutReqs h);;
                emit (EvGoGossip h (2 * 1000000000));;
                emit (EvServe h port);;
                mret (Returned err))
          end
      end).

  (** *** reset *)
Definition reset (g : Globals) (c : Context) : M Result :=
    '(h, err) ← getHolochain g c "reset";
    guard err (
      err ← call (Reset L h) (EvReset h);
      mret (Returned err)).

  (** *** app.Action: no command given *)
Definition app_Action (g : Globals) (c : Context) : M Result :=
    (if negb (initialized g) then mret tt else listChains (service g));;
    mret (Returned None).
End Client.

(** ** One run of the program *)

(** The commands of [app.Commands]; [CmdNone] is a run without a command
    ([app.Action]).  Only [clone], [dev] and [test] declare the flag [force],
    so only they carry its value: for every other command the variable
    [force] keeps its zero value. *)
Inductive Command :=
| CmdNone
| CmdClone (force_flag : bool)
| CmdJoin
| CmdSeed
| CmdDev (force_flag : bool)
| CmdGenKeys
| CmdGenChain
| CmdInit
| CmdDump
| CmdTest (force_flag : bool)
| CmdStatus
| CmdCall
| CmdBs
| CmdServe
| CmdReset.

Definition force_of (cmd : Command) : bool :=
  match cmd with
  | CmdClone f | CmdDev f | CmdTest f => f
  | _ => false
  end.

(** What [app.Before] reads from the process environment:
    [os.Getenv("HOLOPATH")] and [user.Current()] (the home directory, and the
    error). *)
Record Env := { HOLOPATH : string; user_Current : string * error }.

Record Invocation := {
  env : Env;
  flag_verbose : bool;
  flag_path : string;
  command : Command;
  context : Context
}.

Section Run.
Context (L : Library).

  (** [app.Before]: the directory of the service, then whether it is
      initialized, then the service itself. *)
Definition app_Before (inv : Invocation) : M L (Globals * error) :=
    let mk (r : string) (s : Service) (i : bool) : Globals :=
      {| force := force_of (command inv); verbose := flag_verbose inv;
         root := r; service := s; initialized := i |} in
    let continue (r : string) : M L (Globals * error) :=
      i ← read L (IsInitialized L r);
      if negb i then mret (mk r nilService false, None)
      else
        err ← call L (LoadService L r) EvLoadService;
        mret (mk r (if is_nil err then loadedService else nilService) true, err) in
    if String.eqb (flag_path inv) "" then
      if String.eqb (HOLOPATH (env inv)) "" then
        match user_Current (env inv) with
        | (_, Some e) => mret (mk "" nilService false, Some e)
        | (HomeDir, None) => continue (HomeDir +:+ "/" +:+ DefaultDirectoryName L)
        end
      else continue (HOLOPATH (env inv))
    else continue (flag_path inv).

Definition action (cmd : Command) : Globals → Context → M L Result :=
    match cmd with
    | CmdNone => app_Action L
    | CmdClone _ => clone L
    | CmdJoin => join L
    | CmdSeed => seed L
    | CmdDev _ => dev L
    | CmdGenKeys => gen_keys L
    | CmdGenChain => gen_chain L
    | CmdInit => init L
    | CmdDump => dump L
    | CmdTest _ => test L
    | CmdStatus => status L
    | CmdCall => call_cmd L
    | CmdBs => bs L
    | CmdServe => serve L
    | CmdReset => reset L
    end.

  (** [app.Run]: the action runs only when [app.Before] returned [nil]. *)
Definition run (inv : Invocation) : M L Result :=
    '(g, err) ← app_Before inv;
    guard L err (action (command inv) g (context inv)).

Definition result_of {A} (x : A * World L * list Event) : A := fst (fst x).
Definition world_of {A} (x : A * World L * list Event) : World L := snd (fst x).
Definition trace_of {A} (x : A * World L * list Event) : list Event := snd x.

  (** A session: one run after the other on the same world. *)
Fixpoint session (invs : list Invocation) (w : World L)
      : list (Result * list Event) * World L :=
    match invs with
    | [] => ([], w)
    | inv :: rest =>
        let '(r, w1, t) := run inv w in
        let '(rs, w2) := session rest w1 in
        ((r, t) :: rs, w2)
    end.
End Run.

(** ** A library that answers from a script

    The world is trivial and every call returns the answer the script holds
    for it: a run against [ScriptLib s] is the run of [hc] in which the
    library answers as [s] says. *)
Record Script := {
  s_IsInitialized : bool;
  s_LoadService : error;
  s_Clone : error;
  s_Load : error;
  s_GenDNAHashes : error;
  s_Activate : error;
  s_GenChain : error;
  s_ID : Hash * error;
  s_Reset : error;
  s_Test : list GoError;
  s_Walk : list Visit * error
}.

Definition ScriptLib (s : Script) : Library := {|
  World := unit;
  DefaultDirectoryName := ".holochain";
  DNAEntryType := "DNA";
  KeyEntryType := "key";
  HashString := λ h, h;
  IsInitialized := λ _ _, s_IsInitialized s;
  LoadService := λ _ w, (s_LoadService s, w);
  Init := λ _ _ w, (None, w);
  RemoveAll := λ _ w, (None, w);
  Clone := λ _ _ _ _ w, (s_Clone s, w);
  GenDev := λ _ _ _ w, (None, w);
  ConfiguredChains := λ _ _, [];
  Load := λ _ _ w, (s_Load s, w);
  Name := λ h _, h;
  GenDNAHashes := λ _ w, (s_GenDNAHashes s, w);
  EncodeDNA := λ _ w, (([], None), w);
  Sum := λ _ _ w, (("", None), w);
  Activate := λ _ w, (s_Activate s, w);
  GenChain := λ _ w, (s_GenChain s, w);
  ID := λ _ w, (s_ID s, w);
  Reset := λ _ w, (s_Reset s, w);
  Test := λ _ w, (s_Test s, w);
  Walk := λ _ _ w, (s_Walk s, w);
  Call := λ _ _ _ _ w, (None, w);
  BSpost := λ _ w, (None, w)
|}.

(** Every call returns [nil]; the chain has the id ["QmId"]. *)
Definition all_nil : Script := {|
  s_IsInitialized := true;
  s_LoadService := None;
  s_Clone := None;
  s_Load := None;
  s_GenDNAHashes := None;
  s_Activate := None;
  s_GenChain := None;
  s_ID := ("QmId", None);
  s_Reset := None;
  s_Test := [];
  s_Walk := ([], None)
|}.

Definition invoke (cmd : Command) (args : list string) : Invocation := {|
  env := {| HOLOPATH := "/holo"; user_Current := ("/home/u", None) |};
  flag_verbose := false;
  flag_path := "";
  command := cmd;
  context := {| Args := args; osArgs := "hc" :: "cmd" :: args |}
|}.

(** ** Traces *)

(** Every [Q]-event of the trace comes after some [P]-event ([seen]: one has
    come already). *)
Fixpoint preceded (P Q : Event → Prop) (seen : Prop) (tr : list Event) : Prop :=
  match tr with
  | [] => True
  | e :: t => (Q e → seen) ∧ preceded P Q (seen ∨ P e) t
  end.

(** The events of [listChains]. *)
Definition is_listing (e : Event) : Prop :=
  match e with
  | EvConfiguredChains | EvID _ _ | EvChainLine _ _ => True
  | _ => False
  end.

(** The events of the print loop of [dump]. *)
Definition is_dump_line (e : Event) : Prop :=
  match e with
  | EvDumpHeader _ _ | EvDumpEntry _ => True
  | _ => False
  end.

(** ** Reasoning about runs *)

(** The event of [app.Before]. *)
Definition is_before (e : Event) : Prop :=
  match e with EvLoadService _ => True | _ => False end.

(** The two network tasks of the DHT, started with [go]. *)
Definition is_task (h : string) (e : Event) : Prop :=
  match e with
  | EvGoHandlePutReqs h' => h' = h
  | EvGoGossip h' _ => h' = h
  | _ => False
  end.

Definition is_GenChain (h : string) (e : Event) : Prop :=
  match e with EvGenChain h' _ => h' = h | _ => False end.

Definition is_Activate (h : string) (e : Event) : Prop :=
  match e with EvActivate h' _ => h' = h | _ => False end.

(** ** What [dump] prints, triple by triple

    The direct reading of the output of [dump]: for each visited triple, in
    the order of the walk, the lines of the header and then the entry; a
    failed type assertion ends it. *)
Fixpoint print_visits (L : Library) (vs : list Visit) : list Event * Result :=
  match vs with
  | [] => ([], Returned None)
  | (k, hdr, e) :: vs' =>
      match render L hdr e with
      | None => ([EvDumpHeader (HashString L k) hdr], Panicked)
      | Some r =>
          let '(evs, res) := print_visits L vs' in
          (EvDumpHeader (HashString L k) hdr :: EvDumpEntry r :: evs, res)
      end
  end.

(** ** The claims about runs, as predicates on traces *)

(** The events of a session, oldest first. *)
Definition session_trace (L : Library) (invs : list Invocation) (w : World L)
    : list Event :=
  concat (map snd (session L invs w).1).

(** Every successful [Activate] on a chain comes after a successful
    [GenChain] on it. *)
Definition genesis_before_Activate (tr : list Event) : Prop :=
  ∀ pre h post, tr = pre ++ EvActivate h true :: post → EvGenChain h true ∈ pre.


(** The script in which [ID] fails with the error [e]. *)
Definition ID_fails (e : GoError) : Script := {|
  s_IsInitialized := true;
  s_LoadService := None;
  s_Clone := None;
  s_Load := None;
  s_GenDNAHashes := None;
  s_Activate := None;
  s_GenChain := None;
  s_ID := ("", Some e);
  s_Reset := None;
  s_Test := [];
  s_Walk := ([], None)
|}.

(** A script that keeps the guard of the lifecycle on a chain without an id:
    [ID] and [Activate] fail. *)
Definition guarded : Script := {|
  s_IsInitialized := true;
  s_LoadService := None;
  s_Clone := None;
  s_Load := None;
  s_GenDNAHashes := None;
  s_Activate := Some {| Kind := Some NotSeededError; Error := "chain not seeded" |};
  s_GenChain := None;
  s_ID := ("", Some {| Kind := None; Error := uninitialized_id_text |});
  s_Reset := None;
  s_Test := [];
  s_Walk := ([], None)
|}.


(** The variables and arguments of [hc <command> alice] on an initialized
    service. *)
Definition alice_globals : Globals :=
  {| force := false; verbose := false; root := "/holo";
     service := loadedService; initialized := true |}.

Definition alice_context : Context :=
  {| Args := ["alice"]; osArgs := ["hc"; "cmd"; "alice"] |}.

(** What a command returns when [ID] fails with [e]. *)
Definition reaction (cmd : Command) (e : GoError) : Result :=
  result_of (ScriptLib (ID_fails e))
    (run (ScriptLib (ID_fails e)) (invoke cmd ["alice"]) tt).

(** The command hands the error of [ID] on as it is. *)
Definition propagates (react : GoError → Result) (e : GoError) : Prop :=
  react e = Returned (Some e).

(** What the command does with an error of [ID] depends on the kind of the
    error only. *)
Definition decided_by_kind (react : GoError → Result) : Prop :=
  ∀ e1 e2, Kind e1 = Kind e2 → (propagates react e1 ↔ propagates react e2).

(** * The lifecycle and the walker of the library package

    The methods [GenDNAHashes], [GenChain], [Activate], [Reset] and [Walk]
    are code of the package [holo], which [hc.go] only calls.  This module
    holds them as the specification describes them. *)
Module Spec.

(** Modelled from the spec: the states of a chain instance (the state machine
    of the lifecycle controller). *)
Inductive LState := Created | Seeded | Genesis | Activated | Served.

(** Modelled from the spec: the committed headers and entries of a chain, by
    identifier, and its head (the storage collaborator: append, lookup of an
    entry by identifier, lookup of the current head). *)
Record Store (E : Type) := mkStore {
  Headers : gmap Hash Header;
  Entries : gmap Hash E;
  Top : option Hash
}.
Arguments mkStore {E} _ _ _.
Arguments Headers {E} _.
Arguments Entries {E} _.
Arguments Top {E} _.

Definition empty_store {E : Type} : Store E := mkStore ∅ ∅ None.

(** Modelled from the spec: the known total of committed headers. *)
Definition count {E : Type} (st : Store E) : nat := size (Headers st).

(** Modelled from the spec: the append of a header and its entry; the header
    becomes the head. *)
Definition append {E : Type} (k : Hash) (hdr : Header) (e : E) (st : Store E)
    : Store E :=
  {| Headers := <[k := hdr]> (Headers st);
     Entries := <[EntryLink hdr := e]> (Entries st);
     Top := Some k |}.

(** Modelled from the spec: a new header links to the head it is committed
    on ([HeaderLink] references an already committed header, or is nil for
    the first one). *)
Definition commit {E : Type} (k : Hash) (ty : string) (time : Z)
    (tl : option Hash) (el : Hash) (e : E) (st : Store E) : Store E :=
  append k {| Type' := ty; Time := time; HeaderLink := Top st;
              TypeLink := tl; EntryLink := el |} e st.

(** Modelled from the spec: the chains the append-only log can hold: each
    header is committed under an identifier not yet in use, and an entry once
    written is immutable. *)
Inductive committed {E : Type} : Store E → Prop :=
| committed_empty : committed empty_store
| committed_commit st k ty time tl el e :
    committed st →
    Headers st !! k = None →
    (∀ e', Entries st !! el = Some e' → e' = e) →
    committed (commit k ty time tl el e st).

(** Modelled from the spec: the two orders of a walk. *)
Inductive Direction := NewestFirst | OldestFirst.

(** Modelled from the spec: a walk ends with an error of the chain, or with
    the error its callback returned. *)
Inductive WalkError (X : Type) :=
| ChainError (k : ErrorKind)
| VisitError (x : X).
Arguments ChainError {X} _.
Arguments VisitError {X} _.

Section Walker.
Context {E A X : Type}.

(** Modelled from the spec: the path from [cur] toward genesis along
    [HeaderLink], each header with its resolved entry.  [fuel] is the number
    of headers that may still be visited; to go beyond it is a
    [CorruptChainError]. *)
Fixpoint collect (st : Store E) (fuel : nat) (cur : option Hash)
    : list (Hash * Header * E) * option ErrorKind :=
  match cur with
  | None => ([], None)
  | Some k =>
      match fuel with
      | 0 => ([], Some CorruptChainError)
      | S fuel' =>
          match Headers st !! k with
          | None => ([], Some CorruptChainError)
          | Some hdr =>
              match Entries st !! EntryLink hdr with
              | None => ([], Some NotFoundError)
              | Some e =>
                  let '(p, err) := collect st fuel' (HeaderLink hdr) in
                  ((k, hdr, e) :: p, err)
              end
          end
      end
  end.

(** Modelled from the spec: the callback is called on each triple in turn; a
    non-nil error from it ends the walk and is handed to the caller. *)
Fixpoint visit_all (visit : Hash → Header → E → A → A * option X)
    (p : list (Hash * Header * E)) (s : A) : A * option (WalkError X) :=
  match p with
  | [] => (s, None)
  | (k, hdr, e) :: p' =>
      match visit k hdr e s with
      | (s', Some x) => (s', Some (VisitError x))
      | (s', None) => visit_all visit p' s'
      end
  end.

(** Modelled from the spec: the walk newest first follows the links and
    calls the callback as it goes. *)
Fixpoint walk_newest (st : Store E) (fuel : nat) (cur : option Hash)
    (visit : Hash → Header → E → A → A * option X) (s : A)
    : A * option (WalkError X) :=
  match cur with
  | None => (s, None)
  | Some k =>
      match fuel with
      | 0 => (s, Some (ChainError CorruptChainError))
      | S fuel' =>
          match Headers st !! k with
          | None => (s, Some (ChainError CorruptChainError))
          | Some hdr =>
              match Entries st !! EntryLink hdr with
              | None => (s, Some (ChainError NotFoundError))
              | Some e =>
                  match visit k hdr e s with
                  | (s', Some x) => (s', Some (VisitError x))
                  | (s', None) => walk_newest st fuel' (HeaderLink hdr) visit s'
                  end
              end
          end
      end
  end.

(** Modelled from the spec: [Walk(startHeader, direction, visit)].  Oldest
    first collects the full path and then emits it in reverse. *)
Definition Walk (st : Store E) (start : option Hash) (dir : Direction)
    (visit : Hash → Header → E → A → A * option X) (s : A)
    : A * option (WalkError X) :=
  match dir with
  | NewestFirst => walk_newest st (count st) start visit s
  | OldestFirst =>
      match collect st (count st) start with
      | (_, Some k) => (s, Some (ChainError k))
      | (p, None) => visit_all visit (rev p) s
      end
  end.
End Walker.


(** A callback that records what it is called with and never fails. *)
Definition record {E : Type} (k : Hash) (hdr : Header) (e : E)
    (s : list (Hash * Header * E)) : list (Hash * Header * E) * option Empty_set :=
  (s ++ [(k, hdr, e)], None).

(** The triples a walk hands to its callback, in order. *)
Definition visits {E : Type} (st : Store E) (dir : Direction)
    : list (Hash * Header * E) :=
  (Walk st (Top st) dir record []).1.

(** The store with [f] applied to every entry. *)
Definition map_entries {E E' : Type} (f : E → E') (st : Store E) : Store E' :=
  mkStore (Headers st) (f <$> Entries st) (Top st).

Section Lifecycle.
Context {Def : Type}.
Context (EncodeDNA : Def → option (list byte)).
Context (ContentHasher : list byte → Hash).
Context (HeaderId : Header → Hash).

(** Modelled from the spec: a chain instance, with the DNA definition it was
    created from, the hash of that definition once computed, and its log. *)
Record ChainInstance := mkInstance {
  Name : string;
  RootPath : string;
  Id : option Hash;
  State : LState;
  DNA : Def;
  DNAHash : option Hash;
  Chain : Store Entry
}.

(** Modelled from the spec: [HashDNA]. *)
Definition HashDNA (d : Def) : Hash + ErrorKind :=
  match EncodeDNA d with
  | Some bytes => inl (ContentHasher bytes)
  | None => inr MalformedDNAError
  end.

(** Modelled from the spec: Seed (hash DNA), the method [GenDNAHashes]. *)
Definition Seed (i : ChainInstance) : ChainInstance * option ErrorKind :=
  match HashDNA (DNA i) with
  | inr k => (i, Some k)
  | inl d =>
      (mkInstance (Name i) (RootPath i) (Id i)
         (match State i with Created => Seeded | s => s end)
         (DNA i) (Some d) (Chain i), None)
  end.

(** Modelled from the spec: [BuildGenesisHeader]. *)
Definition BuildGenesisHeader (dnaEntryId : Hash) (now : Z) : Header :=
  {| Type' := "DNA"; Time := now; HeaderLink := None; TypeLink := None;
     EntryLink := dnaEntryId |}.

(** Modelled from the spec: GenerateGenesis, the method [GenChain]. *)
Definition GenerateGenesis (now : Z) (i : ChainInstance)
    : ChainInstance * option ErrorKind :=
  match Id i with
  | Some _ => (i, Some AlreadyInitializedError)
  | None =>
      match DNAHash i, EncodeDNA (DNA i) with
      | None, _ => (i, Some NotSeededError)
      | Some _, None => (i, Some MalformedDNAError)
      | Some d, Some bytes =>
          let hdr := BuildGenesisHeader d now in
          (mkInstance (Name i) (RootPath i) (Some d) Genesis (DNA i) (Some d)
             (append (HeaderId hdr) hdr (EntryBytes bytes) (Chain i)), None)
      end
  end.

(** Modelled from the spec: Activate. *)
Definition Activate (i : ChainInstance) : ChainInstance * option ErrorKind :=
  match Id i with
  | None => (i, Some NotSeededError)
  | Some _ =>
      (mkInstance (Name i) (RootPath i) (Id i) Activated (DNA i) (DNAHash i)
         (Chain i), None)
  end.

(** Modelled from the spec: Reset. *)
Definition Reset (i : ChainInstance) : ChainInstance * option ErrorKind :=
  (mkInstance (Name i) (RootPath i) None Created (DNA i) None empty_store, None).

(** Modelled from the spec: the operations of the lifecycle controller on
    one instance. *)
Inductive Op := OpSeed | OpGenerateGenesis (now : Z) | OpActivate | OpReset.

Definition step (op : Op) (i : ChainInstance) : ChainInstance * option ErrorKind :=
  match op with
  | OpSeed => Seed i
  | OpGenerateGenesis now => GenerateGenesis now i
  | OpActivate => Activate i
  | OpReset => Reset i
  end.

(** A sequence of operations, each on the instance the one before left. *)
Definition steps (ops : list Op) (i : ChainInstance) : ChainInstance :=
  foldl (λ i op, (step op i).1) i ops.

Definition is_Reset (op : Op) : Prop :=
  match op with OpReset => True | _ => False end.
End Lifecycle.

Arguments Name {Def} _.
Arguments RootPath {Def} _.
Arguments Id {Def} _.
Arguments State {Def} _.
Arguments DNA {Def} _.
Arguments DNAHash {Def} _.
Arguments Chain {Def} _.
Arguments mkInstance {Def} _ _ _ _ _ _ _.

(** A definition is its own text; the empty text cannot be encoded. *)
Definition text_EncodeDNA (d : string) : option (list byte) :=
  if String.eqb d "" then None else Some (String.list_byte_of_string d).

Definition text_ContentHasher (b : list byte) : Hash :=
  "Qm" +:+ String.string_of_list_byte b.

Definition text_HeaderId (hdr : Header) : Hash := "Hd" +:+ EntryLink hdr.

(** A freshly cloned instance. *)
Definition alice : ChainInstance (Def := string) :=
  mkInstance "alice" "/holo/alice" None Created "app" None empty_store.

(** A chain of three headers, and a store whose two headers link to each
    other. *)
Definition three : Store Entry :=
  commit "h3" "post" 3 None "e3" (EntryOther "third")
    (commit "h2" "key" 2 None "e2" (EntryKey (mkKeyEntry []))
       (commit "h1" "DNA" 1 None "e1" (EntryBytes []) empty_store)).

Definition cyclic : Store Entry :=
  mkStore
    (<["a" := mkHeader "post" 1 (Some "b") None "e"]>
       (<["b" := mkHeader "post" 2 (Some "a") None "e"]> ∅))
    (<["e" := EntryOther "x"]> ∅)
    (Some "a").
End Spec.

(** ** More about the command actions *)

(** The commands whose action starts with [checkForName] or with the test
    of [initialized]. *)
Definition needs_service (cmd : Command) : bool :=
  match cmd with
  | CmdSeed | CmdDev _ | CmdGenChain | CmdDump | CmdTest _ | CmdStatus
  | CmdCall | CmdBs | CmdServe | CmdReset => true
  | _ => false
  end.

(** The name a command hands to [checkForName] or [getHolochain]. *)
Definition command_name (cmd : Command) : option string :=
  match cmd with
  | CmdSeed => Some "seed"
  | CmdDev _ => Some "dev"
  | CmdGenChain => Some "gen chain"
  | CmdDump => Some "dump"
  | CmdTest _ => Some "test"
  | CmdCall => Some "call"
  | CmdBs => Some "bs"
  | CmdServe => Some "serve"
  | CmdReset => Some "reset"
  | _ => None
  end.

(** A call that returned an error the action hands on.  The error of [ID]
    is passed over by [listChains] (the commands [status] and none), and the
    error of [Walk] by [dump]. *)
Definition fatal (cmd : Command) (e : Event) : Prop :=
  match e with
  | EvLoadService ok | EvInit _ ok | EvRemoveAll _ ok | EvClone _ _ _ ok
  | EvGenDev _ _ ok | EvLoad _ ok | EvGenDNAHashes _ ok | EvEncodeDNA _ ok
  | EvSum _ ok | EvActivate _ ok | EvGenChain _ ok | EvReset _ ok
  | EvCall _ _ _ _ ok | EvBSpost _ ok => ok = false
  | EvID _ ok =>
      match cmd with
      | CmdStatus | CmdNone => False
      | _ => ok = false
      end
  | _ => False
  end.

(** The directory [app.Before] leaves in [root], when [user.Current] does
    not fail. *)
Definition resolved_root (L : Library) (inv : Invocation) : string :=
  if String.eqb (flag_path inv) "" then
    if String.eqb (HOLOPATH (env inv)) "" then
      (user_Current (env inv)).1 +:+ "/" +:+ DefaultDirectoryName L
    else HOLOPATH (env inv)
  else flag_path inv.

(** The names [listChains] prints, in the order of its lines. *)
Definition chain_lines (tr : list Event) : list (string * string) :=
  omap (λ e, match e with EvChainLine k sid => Some (k, sid) | _ => None end) tr.

(** The header [dump] has in [links] for a key after the walk: the one of
    the last visit under that key. *)
Fixpoint last_header (L : Library) (vs : list Visit) (ks : string) : option Header :=
  match vs with
  | [] => None
  | (k, hdr, e) :: vs' =>
      match last_header L vs' ks with
      | Some h => Some h
      | None => if String.eqb (HashString L k) ks then Some hdr else None
      end
  end.

(** A script whose walk hands the key ["h1"] to the callback twice. *)
Definition twice : list Visit :=
  [("h1", mkHeader "post" 1 None None "e1", EntryOther "first");
   ("h1", mkHeader "note" 2 None None "e2", EntryOther "second")].

(** The directory an event removes or writes. *)
Definition written_path (e : Event) : option string :=
  match e with
  | EvRemoveAll p _ | EvClone _ p _ _ | EvGenDev p _ _ => Some p
  | _ => None
  end.

(** The argument that names the chain, for the commands that create one:
    the second for [clone] and [join], the first for [dev]. *)
Definition new_chain_name (cmd : Command) (c : Context) : option string :=
  match cmd with
  | CmdClone _ | CmdJoin => Args c !! 1%nat
  | CmdDev _ => Some (First (Args c))
  | _ => None
  end.

(** A library with two configured chains, of which only ["alice"] has an
    id; every other call returns nil. *)
Definition two_chains : Library := {|
  World := unit;
  DefaultDirectoryName := ".holochain";
  DNAEntryType := "DNA";
  KeyEntryType := "key";
  HashString := λ h, h;
  IsInitialized := λ _ _, true;
  LoadService := λ _ w, (None, w);
  Init := λ _ _ w, (None, w);
  RemoveAll := λ _ w, (None, w);
  Clone := λ _ _ _ _ w, (None, w);
  GenDev := λ _ _ _ w, (None, w);
  ConfiguredChains := λ _ _, ["alice"; "bob"];
  Load := λ _ _ w, (None, w);
  Name := λ h _, h;
  GenDNAHashes := λ _ w, (None, w);
  EncodeDNA := λ _ w, (([], None), w);
  Sum := λ _ _ w, (("", None), w);
  Activate := λ _ w, (None, w);
  GenChain := λ _ w, (None, w);
  ID := λ k w,
    if String.eqb k "alice" then (("QmId", None), w)
    else (("", Some {| Kind := None; Error := uninitialized_id_text |}), w);
  Reset := λ _ w, (None, w);
  Test := λ _ w, ([], w);
  Walk := λ _ _ w, (([], None), w);
  Call := λ _ _ _ _ w, (None, w);
  BSpost := λ _ w, (None, w)
|}.

(** The script in which [Walk] hands [vs] to the callback and returns
    [err]. *)
Definition walks (vs : list Visit) (err : error) : Script := {|
  s_IsInitialized := true;
  s_LoadService := None;
  s_Clone := None;
  s_Load := None;
  s_GenDNAHashes := None;
  s_Activate := None;
  s_GenChain := None;
  s_ID := ("QmId", None);
  s_Reset := None;
  s_Test := [];
  s_Walk := (vs, err)
|}.

(** The lifecycle operations a command can call, from the source. *)
Definition may_call (cmd : Command) (e : Event) : Prop :=
  match e with
  | EvGenDNAHashes _ _ => cmd = CmdSeed ∨ cmd = CmdJoin ∨ cmd = CmdGenChain
  | EvEncodeDNA _ _ | EvSum _ _ => cmd = CmdSeed
  | EvGenChain _ _ => cmd = CmdJoin ∨ cmd = CmdGenChain
  | EvActivate _ _ =>
      cmd = CmdJoin ∨ cmd = CmdGenChain ∨ (∃ f, cmd = CmdTest f) ∨ cmd = CmdServe
  | EvGoHandlePutReqs _ => cmd = CmdJoin ∨ cmd = CmdGenChain ∨ cmd = CmdServe
  | EvGoGossip _ _ | EvServe _ _ => cmd = CmdServe
  | EvWalk _ _ _ | EvDumpChain _ | EvDumpHeader _ _ | EvDumpEntry _ => cmd = CmdDump
  | EvTest _ _ => ∃ f, cmd = CmdTest f
  | EvCall _ _ _ _ _ => cmd = CmdCall
  | EvBSpost _ _ => cmd = CmdBs
  | EvInit _ _ => cmd = CmdInit
  | EvClone _ _ new _ => if new then ∃ f, cmd = CmdClone f else cmd = CmdJoin
  | EvGenDev _ _ _ => ∃ f, cmd = CmdDev f
  | EvConfiguredChains | EvChainLine _ _ => cmd = CmdStatus ∨ cmd = CmdNone
  | _ => True
  end.

(** The chain an event works on. *)
Definition handle_of (e : Event) : option string :=
  match e with
  | EvLoad h _ | EvGenDNAHashes h _ | EvEncodeDNA h _ | EvSum h _
  | EvActivate h _ | EvGenChain h _ | EvID h _ | EvReset h _ | EvTest h _
  | EvWalk h _ _ | EvCall h _ _ _ _ | EvBSpost h _ | EvGoHandlePutReqs h
  | EvGoGossip h _ | EvServe h _ => Some h
  | _ => None
  end.

(** The argument that names the chain a command works on: the second for
    [join], the first for the commands that load a chain. *)
Definition chain_argument (cmd : Command) (c : Context) : option string :=
  match cmd with
  | CmdJoin => Args c !! 1%nat
  | CmdSeed | CmdGenChain | CmdDump | CmdTest _ | CmdCall | CmdBs | CmdServe
  | CmdReset => Some (First (Args c))
  | _ => None
  end.

Lemma preceded_mono (P Q : Event → Prop) (s s' : Prop) tr :
  (s → s') → preceded P Q s tr → preceded P Q s' tr.
Proof.
  revert s s'. induction tr as [|e t IH]; intros s s' Hs; simpl; [done|].
  intros [H1 H2]. split; [tauto|]. eapply IH; [|exact H2]. tauto.
Qed.

Lemma preceded_app (P Q : Event → Prop) (s : Prop) t1 t2 :
  preceded P Q s t1 →
  preceded P Q (s ∨ Exists P t1) t2 →
  preceded P Q s (t1 ++ t2).
Proof.
  revert s. induction t1 as [|e t IH]; intros s H1 H2; simpl in *.
  - eapply preceded_mono; [|exact H2]. intros [?|H]; [done|]. inversion H.
  - destruct H1 as [H1 H1']. split; [done|]. apply IH; [done|].
    eapply preceded_mono; [|exact H2]. rewrite Exists_cons. tauto.
Qed.

Lemma preceded_none (P Q : Event → Prop) (s : Prop) tr :
  Forall (λ e, ¬ Q e) tr → preceded P Q s tr.
Proof.
  intros H. revert s. induction H as [|e t He _ IH]; intros s; simpl; [done|].
  split; [tauto|]. apply IH.
Qed.

Lemma preceded_split (P Q : Event → Prop) tr :
  preceded P Q False tr →
  ∀ pre e post, tr = pre ++ e :: post → Q e → ∃ e', e' ∈ pre ∧ P e'.
Proof.
  assert (G : ∀ tr (s : Prop), preceded P Q s tr →
    ∀ pre e post, tr = pre ++ e :: post → Q e → s ∨ ∃ e', e' ∈ pre ∧ P e').
  { clear tr. induction tr as [|x t IH]; intros s H pre e post E HQ.
    - by destruct pre.
    - destruct H as [H1 H2]. destruct pre as [|y pre]; simplify_eq/=.
      + left. tauto.
      + destruct (IH _ H2 _ _ _ eq_refl HQ) as [[?|?]|(e' & ? & ?)].
        * by left.
        * right. exists y. split; [left|done].
        * right. exists e'. split; [by right|done]. }
  intros H pre e post E HQ. destruct (G _ _ H _ _ _ E HQ) as [[]|?]; done.
Qed.

Section TraceLemmas.
Context (L : Library).

Lemma listChains_loop_listing chains w :
    Forall is_listing (trace_of L (listChains_loop L chains w)).
Proof.
    revert w. induction chains as [|k ks IH]; intros w; [constructor|].
    cbn [listChains_loop]. unfold trace_of, mbind, M_bind, call2, emit.
    destruct (ID L k w) as [[id err] w1]. specialize (IH w1).
    destruct (listChains_loop L ks w1) as [[u w2] t]. simpl in *.
    constructor; [done|]. by constructor.
Qed.

Lemma listChains_listing s w :
    Forall is_listing (trace_of L (listChains L s w)).
Proof.
    unfold listChains, trace_of, mbind, M_bind, emit, read.
    pose proof (listChains_loop_listing (ConfiguredChains L s w) w) as H.
    destruct (listChains_loop L _ w) as [[u w2] t]. simpl in *.
    by constructor.
Qed.

Lemma dump_loop_lines s js :
    Forall is_dump_line (dump_loop L s js).1.
Proof.
    induction js as [|i js IH]; simpl; [constructor|].
    destruct (render _ _ _); simpl.
    - destruct (dump_loop L s js) as [evs res]. simpl in *.
      constructor; [done|]. by constructor.
    - by constructor.
Qed.
End TraceLemmas.

(** ** Tactics for the paths of an action *)

Arguments listChains : simpl never.
Arguments dump_loop : simpl never.

Ltac unfold_M :=
  unfold guard, call, call2, emit, read, mbind, mret, M_bind, M_ret,
    trace_of, result_of, world_of.

Ltac unfold_action :=
  unfold action, app_Action, clone, join, seed, dev, gen_keys,
    gen_chain, init, dump, test, status, call_cmd, bs, serve, reset,
    getHolochain, checkForName, genChain; unfold_M.

(** What is known of the events of a loop, once its run has been named. *)
Ltac tail_facts :=
  repeat match goal with
  | H : listChains ?L ?s ?w = (_, _, ?t) |- _ =>
      let F := fresh "Hlisting" in
      pose proof (listChains_listing L s w) as F;
      rewrite H in F; unfold trace_of in F; simpl in F; clear H
  | H : dump_loop ?L ?s ?js = (?t, _) |- _ =>
      let F := fresh "Hlines" in
      pose proof (dump_loop_lines L s js) as F;
      rewrite H in F; simpl in F; clear H
  end.

(** One goal for each path through an action. *)
Ltac paths := repeat (simpl; case_match; simplify_eq/=); simpl; tail_facts.

(** [e ∈ t] for an explicit [t], or for one that ends in the events of a loop. *)
Ltac elem_cases H :=
  rewrite ?app_nil_r, ?elem_of_app, ?elem_of_cons, ?elem_of_nil in H;
  repeat match type of H with
  | _ ∨ _ => destruct H as [H|H]
  | False => destruct H
  end;
  try discriminate H;
  try (match goal with
       | F : Forall _ ?t |- _ =>
           match type of H with
           | _ ∈ t => rewrite Forall_forall in F; apply F in H; destruct H
           end
       end).

(** [t = pre ++ e :: post] for an explicit [t]: one goal for each place of
    [e] in [t]. *)
Ltac split_trace :=
  simpl in *; rewrite ?app_nil_r in *;
  repeat match goal with
  | H : _ :: _ = ?pre ++ _ :: _ |- _ => destruct pre; simplify_eq/=
  | H : [] = ?pre ++ _ :: _ |- _ => by destruct pre
  end;
  try match goal with
  | H : ?t = _ ++ _ :: _ |- _ => is_var t; subst t
  end;
  try match goal with
  | F : Forall _ (_ ++ _ :: _) |- _ =>
      rewrite Forall_app, Forall_cons in F;
      let F1 := fresh in let F2 := fresh in
      destruct F as (_ & F1 & _); by destruct F1
  end.

Ltac in_list :=
  repeat first [apply list_elem_of_here | apply list_elem_of_further].

Section Runs.
Context (L : Library).

  (** A run is [app.Before], which may end it with an error, and then the
      action of the command, with [force] as the command line gave it. *)
Lemma run_action inv w :
    ∃ tb, Forall is_before tb ∧
      ((∃ e w', run L inv w = (Returned (Some e), w', tb)) ∨
       (∃ g w1, force g = force_of (command inv) ∧
          run L inv w =
            (let '(r, w2, ta) := action L (command inv) g (context inv) w1 in
             (r, w2, tb ++ ta)))).
Proof.
    unfold run, app_Before. unfold_M.
    repeat (simpl; case_match; simplify_eq/=).
    all: match goal with
         | H : action _ _ ?g _ ?w1 = (_, _, ?l) |- context [(_, _, ?t)] =>
             match t with
             | l => exists []
             | ?e :: l => exists [e]
             end;
             split; [repeat constructor|];
             right; exists g, w1; split; [done|]; by rewrite H
         | |- context [(Returned (Some _), _, ?t)] =>
             exists t; split; [repeat constructor|]; left; by eexists _, _
         end.
Qed.

Lemma run_preceded (P Q : Event → Prop) inv w :
    (∀ e, is_before e → ¬ Q e) →
    (∀ cmd g c w1, preceded P Q False (trace_of L (action L cmd g c w1))) →
    preceded P Q False (trace_of L (run L inv w)).
Proof.
    intros HQ Hact.
    destruct (run_action inv w) as (tb & Hb & [(e & w' & ->)|(g & w1 & _ & ->)]).
    - apply preceded_none. eapply Forall_impl; [exact Hb|]. exact HQ.
    - specialize (Hact (command inv) g (context inv) w1).
      destruct (action L _ g _ w1) as [[r w2] ta]. unfold trace_of in *. simpl in *.
      apply preceded_app.
      + apply preceded_none. eapply Forall_impl; [exact Hb|]. exact HQ.
      + eapply preceded_mono; [|exact Hact]. tauto.
Qed.

Lemma run_elem inv w e :
    e ∈ trace_of L (run L inv w) →
    is_before e ∨
    ∃ g w1, force g = force_of (command inv) ∧
      e ∈ trace_of L (action L (command inv) g (context inv) w1) ∧
      result_of L (run L inv w) = result_of L (action L (command inv) g (context inv) w1).
Proof.
    destruct (run_action inv w) as (tb & Hb & [(x & w' & ->)|(g & w1 & Hf & ->)]).
    - unfold trace_of. simpl. intros H. left.
      rewrite Forall_forall in Hb. by apply Hb.
    - destruct (action L _ g _ w1) as [[r w2] ta] eqn:E.
      unfold trace_of, result_of. simpl. rewrite elem_of_app. intros [H|H].
      + left. rewrite Forall_forall in Hb. by apply Hb.
      + right. exists g, w1. rewrite E. done.
Qed.

Lemma action_tasks_preceded cmd g c w h :
    preceded (λ e, e = EvActivate h true) (is_task h) False
      (trace_of L (action L cmd g c w)).
Proof.
    destruct cmd; unfold_action; paths.
    all: simpl; repeat split; try tauto; try (intros; subst; tauto).
    all: rewrite ?app_nil_r; apply preceded_none;
         (eapply Forall_impl; [eassumption|]); intros []; simpl; tauto.
Qed.

Lemma action_failed_Activate_no_task cmd g c w h e :
    EvActivate h false ∈ trace_of L (action L cmd g c w) →
    e ∈ trace_of L (action L cmd g c w) → ¬ is_task h e.
Proof.
    destruct cmd; unfold_action; paths; intros Hfail Hin.
    all: elem_cases Hfail; simplify_eq.
    all: elem_cases Hin; simplify_eq; simpl; tauto.
Qed.

Lemma action_GenChain_preceded cmd g c w h :
    preceded (λ e, e = EvGenDNAHashes h true) (is_GenChain h) False
      (trace_of L (action L cmd g c w)).
Proof.
    destruct cmd; unfold_action; paths.
    all: simpl; repeat split; try tauto; try (intros; subst; tauto).
    all: rewrite ?app_nil_r; apply preceded_none;
         (eapply Forall_impl; [eassumption|]); intros []; simpl; tauto.
Qed.

Lemma action_GenChain_after_Activate cmd g c w h b pre post :
    trace_of L (action L cmd g c w) = pre ++ EvGenChain h b :: post →
    ∃ pre', pre = pre' ++ [EvActivate h true] ∧ ∀ e, e ∈ pre' → ¬ is_GenChain h e.
Proof.
    destruct cmd; unfold_action; paths; intros Hsplit.
    all: split_trace.
    all: try (eexists [_; _; _]; split; [reflexivity|]).
    all: try (eexists [_; _]; split; [reflexivity|]).
    all: intros e He; elem_cases He; simplify_eq; simpl; tauto.
Qed.

Lemma action_serve_Activate_after_ID g c w h b pre post :
    trace_of L (serve L g c w) = pre ++ EvActivate h b :: post →
    EvID h true ∈ pre.
Proof.
    unfold_action; paths; intros Hsplit.
    all: split_trace.
    all: in_list.
Qed.


Lemma test_after_Activate g c w h :
    EvActivate h true ∈ trace_of L (test L g c w) →
    ∃ errs w1 w2,
      Test L h w1 = (errs, w2) ∧
      EvTest h (length errs) ∈ trace_of L (test L g c w) ∧
      result_of L (test L g c w) =
        Returned (errors_New (foldl (λ s e, s +:+ Error e) "" errs)).
Proof.
    unfold_action; paths; intros Hin.
    all: elem_cases Hin; simplify_eq.
    all: eexists _, _, _; split; [eassumption|]; split; [in_list|reflexivity].
Qed.





  (** [dump] does not look at the error of [Walk]: once [ID] has returned an
      id, it prints what the walk visited and returns nil, or panics. *)
Lemma dump_drops_Walk_error g c w name w1 id w2 vs err w3 :
    initialized g = true → First (Args c) = name → name ≠ "" →
    Load L (service g) name w = (None, w1) →
    ID L name w1 = ((id, None), w2) →
    Walk L name true w2 = ((vs, err), w3) →
    result_of L (dump L g c w) =
      (dump_loop L (feed (dump_visit L) vs dump_init)
         (seq 0 (idx (feed (dump_visit L) vs dump_init)))).2.
Proof.
    intros Hi Hn Hne Hl Hid Hw. unfold_action. rewrite Hi, Hn. simpl.
    apply String.eqb_neq in Hne. rewrite Hne, Hl. simpl. rewrite Hid. simpl.
    rewrite Hw. simpl. by destruct (dump_loop L _ _).
Qed.

Lemma session_run invs w r tr :
    (r, tr) ∈ (session L invs w).1 →
    ∃ inv w', inv ∈ invs ∧ result_of L (run L inv w') = r ∧ trace_of L (run L inv w') = tr.
Proof.
    revert w. induction invs as [|inv invs IH]; intros w; simpl.
    - intros Hin. by apply elem_of_nil in Hin.
    - destruct (run L inv w) as [[r1 w1] t1] eqn:E1.
      destruct (session L invs w1) as [rs w2] eqn:E2. simpl.
      rewrite elem_of_cons. intros [Heq|Hin].
      + simplify_eq. exists inv, w. rewrite E1. split; [left|done].
      + specialize (IH w1). rewrite E2 in IH.
        destruct (IH Hin) as (inv' & w' & ? & ? & ?).
        exists inv', w'. split; [by right|done].
Qed.
End Runs.

(** What [app.Before] leaves to the action. *)
Lemma run_globals (L : Library) inv (w : World L) :
  (∃ home e, flag_path inv = "" ∧ HOLOPATH (env inv) = "" ∧
     user_Current (env inv) = (home, Some e) ∧
     run L inv w = (Returned (Some e), w, [])) ∨
  (∃ e w', IsInitialized L (resolved_root L inv) w = true ∧
     LoadService L (resolved_root L inv) w = (Some e, w') ∧
     run L inv w = (Returned (Some e), w', [EvLoadService false])) ∨
  (∃ g w1 tb,
     root g = resolved_root L inv ∧
     force g = force_of (command inv) ∧
     initialized g = IsInitialized L (root g) w ∧
     ((initialized g = false ∧ service g = nilService ∧ w1 = w ∧ tb = []) ∨
      (initialized g = true ∧ service g = loadedService ∧
       LoadService L (root g) w = (None, w1) ∧ tb = [EvLoadService true])) ∧
     run L inv w =
       (let '(r, w2, ta) := action L (command inv) g (context inv) w1 in
        (r, w2, tb ++ ta))).
Proof.
  unfold run, app_Before, resolved_root. unfold_M.
  repeat (simpl; case_match; simplify_eq/=).
  all: repeat match goal with
       | H : String.eqb _ _ = true |- _ => apply String.eqb_eq in H
       | H : negb _ = false |- _ => apply negb_false_iff in H
       | H : negb _ = true |- _ => apply negb_true_iff in H
       end.
  all: try (left; eexists _, _; by repeat split).
  all: try (right; left; eexists _, _; by repeat split).
  all: right; right.
  all: match goal with
       | H : action _ _ ?g _ ?w1 = (_, _, ?l) |- context [(_, _, ?t)] =>
           match t with
           | l => exists g, w1, []
           | ?e :: l => exists g, w1, [e]
           end;
           rewrite H; simpl
       end.
  all: repeat split; try done.
  all: first [by left | by right].
Qed.

(** ** Runs against the script in which every call returns nil *)

Example serve_all_nil :
  run (ScriptLib all_nil) (invoke CmdServe ["alice"]) tt =
    (Returned None, tt,
     [EvLoadService true; EvLoad "alice" true; EvID "alice" true;
      EvActivate "alice" true; EvGoHandlePutReqs "alice";
      EvGoGossip "alice" 2000000000; EvServe "alice" "3141"]).
Proof. reflexivity. Qed.

Example join_all_nil :
  run (ScriptLib all_nil) (invoke CmdJoin ["/src/app"; "alice"]) tt =
    (Returned None, tt,
     [EvLoadService true; EvClone "/src/app" "/holo/alice" false true;
      EvLoad "alice" true; EvGenDNAHashes "alice" true;
      EvActivate "alice" true; EvGenChain "alice" true;
      EvGoHandlePutReqs "alice"; EvID "alice" true]).
Proof. reflexivity. Qed.

Example reset_all_nil :
  run (ScriptLib all_nil) (invoke CmdReset ["alice"]) tt =
    (Returned None, tt,
     [EvLoadService true; EvLoad "alice" true; EvReset "alice" true]).
Proof. reflexivity. Qed.

Example test_all_nil :
  run (ScriptLib all_nil) (invoke (CmdTest false) ["alice"]) tt =
    (Returned (errors_New ""), tt,
     [EvLoadService true; EvLoad "alice" true; EvActivate "alice" true;
      EvTest "alice" 0]).
Proof. reflexivity. Qed.

(** ** The network tasks *)

(** C5. In every run, [HandlePutReqs] and [Gossip] of a chain are started
    only after [Activate] has returned nil on that chain in this run; and in
    a run in which [Activate] fails on the chain, neither is started. *)
Theorem network_tasks_only_after_Activate
    (L : Library) (inv : Invocation) (w : World L) (h : string) :
  (∀ pre e post, trace_of L (run L inv w) = pre ++ e :: post →
     is_task h e → EvActivate h true ∈ pre) ∧
  (EvActivate h false ∈ trace_of L (run L inv w) →
     ∀ e, e ∈ trace_of L (run L inv w) → ¬ is_task h e).
Proof.
  split.
  - intros pre e post Htr Htask.
    destruct (preceded_split (λ e, e = EvActivate h true) (is_task h)
                (trace_of L (run L inv w))) with pre e post
      as (e' & Hin & ->); [|done|done|done].
    apply run_preceded.
    + intros []; simpl; tauto.
    + intros. apply action_tasks_preceded.
  - destruct (run_action L inv w) as (tb & Hb & [(x & w' & ->)|(g & w1 & _ & ->)]).
    + unfold trace_of. simpl. intros Hin.
      rewrite Forall_forall in Hb. by destruct (Hb _ Hin).
    + pose proof (action_failed_Activate_no_task L (command inv) g (context inv) w1 h)
        as Hact.
      destruct (action L _ g _ w1) as [[r w2] ta]. unfold trace_of in *. simpl in *.
      rewrite Forall_forall in Hb.
      intros Hin e He. apply elem_of_app in Hin, He.
      destruct Hin as [Hin|Hin]; [by destruct (Hb _ Hin)|].
      destruct He as [He|He]; [|by eapply Hact].
      apply Hb in He. destruct e; simpl in *; tauto.
Qed.

Lemma network_tasks_only_after_Activate_witness :
  EvActivate "alice" true
    ∈ [EvLoadService true; EvLoad "alice" true; EvID "alice" true;
       EvActivate "alice" true].
Proof.
  apply (proj1 (network_tasks_only_after_Activate (ScriptLib all_nil)
                  (invoke CmdServe ["alice"]) tt "alice")
           _ (EvGoHandlePutReqs "alice")
           [EvGoGossip "alice" 2000000000; EvServe "alice" "3141"]);
    reflexivity.
Defined.

(** ** Genesis after the DNA hashes *)

(** C6. In every session, each call of [GenChain] on a chain (so each
    successful one) comes, in its run, after a call of [GenDNAHashes] on that
    chain that returned nil. *)
Theorem GenChain_only_after_GenDNAHashes
    (L : Library) (invs : list Invocation) (w : World L)
    (r : Result) (tr pre post : list Event) (h : string) (b : bool) :
  (r, tr) ∈ (session L invs w).1 →
  tr = pre ++ EvGenChain h b :: post →
  EvGenDNAHashes h true ∈ pre.
Proof.
  intros Hin Htr. apply session_run in Hin as (inv & w' & _ & _ & <-).
  destruct (preceded_split (λ e, e = EvGenDNAHashes h true) (is_GenChain h)
              (trace_of L (run L inv w'))) with pre (EvGenChain h b) post
    as (e' & Hin & ->); [|done|done|done].
  apply run_preceded.
  - intros []; simpl; tauto.
  - intros. apply action_GenChain_preceded.
Qed.

Lemma GenChain_only_after_GenDNAHashes_witness :
  EvGenDNAHashes "alice" true
    ∈ [EvLoadService true; EvClone "/src/app" "/holo/alice" false true;
       EvLoad "alice" true; EvGenDNAHashes "alice" true;
       EvActivate "alice" true].
Proof.
  apply (GenChain_only_after_GenDNAHashes (ScriptLib all_nil)
           [invoke CmdJoin ["/src/app"; "alice"]] tt (Returned None)
           (trace_of (ScriptLib all_nil)
              (run (ScriptLib all_nil) (invoke CmdJoin ["/src/app"; "alice"]) tt))
           [EvLoadService true; EvClone "/src/app" "/holo/alice" false true;
            EvLoad "alice" true; EvGenDNAHashes "alice" true;
            EvActivate "alice" true]
           [EvGoHandlePutReqs "alice"; EvID "alice" true] "alice" true).
  - vm_compute. apply list_elem_of_here.
  - reflexivity.
Defined.

(** ** Reset *)






(** ** test *)

(** C9. A run of [test] in which [Activate] returns nil returns a non-nil
    error, made by [errors.New] from the texts of the failures of [h.Test()]
    one after the other; when there is no failure its text is empty. *)
Theorem test_returns_error
    (L : Library) (inv : Invocation) (w : World L) (f : bool) (h : string) :
  command inv = CmdTest f →
  EvActivate h true ∈ trace_of L (run L inv w) →
  ∃ errs w1 w2 e,
    Test L h w1 = (errs, w2) ∧
    result_of L (run L inv w) = Returned (Some e) ∧
    Kind e = None ∧
    Error e = foldl (λ s x, s +:+ Error x) "" errs ∧
    (errs = [] → Error e = "").
Proof.
  intros Hc Hin. apply run_elem in Hin as [Hb|(g & w1 & _ & Hin & ->)]; [done|].
  rewrite Hc in *. simpl in *.
  apply test_after_Activate in Hin as (errs & w2 & w3 & Ht & _ & ->).
  exists errs, w2, w3, {| Kind := None; Error := foldl (λ s x, s +:+ Error x) "" errs |}.
  repeat split; [done|]. by intros ->.
Qed.

Lemma test_returns_error_witness :
  ∃ errs w1 w2 e,
    Test (ScriptLib all_nil) "alice" w1 = (errs, w2) ∧
    result_of (ScriptLib all_nil)
      (run (ScriptLib all_nil) (invoke (CmdTest false) ["alice"]) tt)
      = Returned (Some e) ∧
    Kind e = None ∧
    Error e = foldl (λ s x, s +:+ Error x) "" errs ∧
    (errs = [] → Error e = "").
Proof.
  apply (test_returns_error (ScriptLib all_nil)
           (invoke (CmdTest false) ["alice"]) tt false "alice").
  - reflexivity.
  - vm_compute. in_list.
Defined.

(** ** serve *)



Example serve_second_argument :
  trace_of (ScriptLib all_nil)
    (run (ScriptLib all_nil) (invoke CmdServe ["alice"; "8080"]) tt) =
    [EvLoadService true; EvLoad "alice" true; EvID "alice" true;
     EvActivate "alice" true; EvGoHandlePutReqs "alice";
     EvGoGossip "alice" 2000000000; EvServe "alice" "8080"].
Proof. reflexivity. Qed.

(** ** The error of ID *)


Example serve_decides_by_text : ¬ decided_by_kind (reaction CmdServe).
Proof.
  intros H.
  specialize (H {| Kind := None; Error := uninitialized_id_text |}
                {| Kind := None; Error := "database is locked" |} eq_refl).
  unfold propagates in H. vm_compute in H. destruct H as [_ H].
  discriminate (H eq_refl).
Qed.



(** * The lifecycle and the walker of the library package *)

Module SpecTheory.
Import Spec.
Local Open Scope nat_scope.

(** *** The walker *)
Section WalkerFacts.
Context {E : Type}.
Implicit Types (st : Store E) (p : list (Hash * Header * E)).


Lemma visit_all_record p (s : list (Hash * Header * E)) :
  visit_all record p s = (s ++ p, None).
Proof.
  revert s. induction p as [|[[k hdr] e] p IH]; intros s; simpl.
  - by rewrite app_nil_r.
  - unfold record at 1. rewrite IH. by rewrite <- app_assoc.
Qed.

(** Newest first with the recording callback: what was collected before the
    walk ended, and the error that ended it. *)
Lemma walk_newest_record st fuel cur (s : list (Hash * Header * E)) :
  walk_newest st fuel cur record s =
    (s ++ (collect st fuel cur).1, ChainError <$> (collect st fuel cur).2).
Proof.
  revert cur s. induction fuel as [|n IH]; intros [k|] s; simpl;
    rewrite ?app_nil_r; try done.
  destruct (Headers st !! k) as [hdr|]; simpl; rewrite ?app_nil_r; [|done].
  destruct (Entries st !! EntryLink hdr) as [e|]; simpl; rewrite ?app_nil_r; [|done].
  rewrite IH. destruct (collect st n (HeaderLink hdr)) as [p err]. simpl.
  by rewrite <- app_assoc.
Qed.


Lemma visits_newest st : visits st NewestFirst = (collect st (count st) (Top st)).1.
Proof. unfold visits, Walk. by rewrite walk_newest_record. Qed.

Lemma visits_oldest st :
  visits st OldestFirst =
    match (collect st (count st) (Top st)).2 with
    | None => rev (collect st (count st) (Top st)).1
    | Some _ => []
    end.
Proof.
  unfold visits, Walk. destruct (collect st _ _) as [p [k|]]; simpl; [done|].
  by rewrite visit_all_record.
Qed.


(** Committing under a fresh identifier leaves the paths of the store as
    they were. *)
Lemma collect_append st k hdr e fuel cur p :
  Headers st !! k = None →
  (∀ e', Entries st !! EntryLink hdr = Some e' → e' = e) →
  collect st fuel cur = (p, None) →
  collect (append k hdr e st) fuel cur = (p, None).
Proof.
  intros Hk He. revert cur p. induction fuel as [|n IH]; intros [j|] p; simpl;
    try done.
  destruct (Headers st !! j) as [hj|] eqn:Hj; [|done].
  destruct (Entries st !! EntryLink hj) as [ej|] eqn:Hej; [|done].
  destruct (collect st n (HeaderLink hj)) as [p' err] eqn:Ec.
  intros; simplify_eq.
  rewrite lookup_insert_ne by congruence. rewrite Hj.
  assert (<[EntryLink hdr:=e]> (Entries st) !! EntryLink hj = Some ej) as ->.
  { destruct (decide (EntryLink hdr = EntryLink hj)) as [Heq|Hne].
    - rewrite Heq, lookup_insert_eq. f_equal. symmetry. apply He. by rewrite Heq.
    - by rewrite lookup_insert_ne. }
  by rewrite (IH _ _ Ec).
Qed.

(** The path of a committed chain: whole, as long as the chain, without
    repetition, and made of the committed headers with their entries. *)
Lemma committed_collect st :
  committed st →
  ∃ p, collect st (count st) (Top st) = (p, None) ∧
    length p = count st ∧
    NoDup (map (λ v, v.1.1) p) ∧
    (∀ k hdr, Headers st !! k = Some hdr ↔ ∃ e, (k, hdr, e) ∈ p) ∧
    (∀ k hdr e, (k, hdr, e) ∈ p → Entries st !! EntryLink hdr = Some e).
Proof.
  induction 1 as [|st k ty time tl el e Hc (p & Hp & Hlen & Hnd & Hall & Hent) Hk He].
  - exists []. unfold count. simpl. rewrite map_size_empty.
    split; [done|]. split; [done|]. split; [constructor|]. split.
    + intros k hdr. split.
      * intros Hl. simpl in Hl. by rewrite lookup_empty in Hl.
      * intros [e He]. by apply elem_of_nil in He.
    + intros k hdr e Hin. by apply elem_of_nil in Hin.
  - set (hdr := {| Type' := ty; Time := time; HeaderLink := Top st;
                   TypeLink := tl; EntryLink := el |}).
    assert (count (commit k ty time tl el e st) = S (count st)) as Hcount.
    { unfold count, commit, append. simpl. by rewrite map_size_insert_None. }
    exists ((k, hdr, e) :: p). rewrite Hcount.
    assert (k ∉ map (λ v, v.1.1) p) as Hfresh.
    { intros Hin. apply list_elem_of_fmap in Hin as ([[k' h'] e'] & -> & Hin).
      simpl in Hk. assert (Headers st !! k' = Some h') as Hl by (apply Hall; eauto).
      congruence. }
    split; [|split; [|split; [|split]]].
    + simpl. rewrite lookup_insert_eq. simpl. rewrite lookup_insert_eq.
      unfold commit. fold hdr.
      by rewrite (collect_append st k hdr e _ _ p Hk He Hp).
    + simpl. by rewrite Hlen.
    + simpl. by constructor.
    + unfold commit. fold hdr. simpl. intros k0 hdr0. split.
      * intros Hl. destruct (decide (k = k0)) as [<-|Hne].
        -- rewrite lookup_insert_eq in Hl. simplify_eq. exists e. left.
        -- rewrite lookup_insert_ne in Hl by done.
           apply Hall in Hl as [e0 Hin]. exists e0. by right.
      * intros [e0 Hin]. apply elem_of_cons in Hin as [Heq|Hin].
        -- simplify_eq. by rewrite lookup_insert_eq.
        -- assert (Headers st !! k0 = Some hdr0) as Hl by (apply Hall; eauto).
           rewrite lookup_insert_ne; [done|]. congruence.
    + unfold commit. fold hdr. simpl. intros k0 hdr0 e0 Hin.
      apply elem_of_cons in Hin as [Heq|Hin].
      * simplify_eq. by rewrite lookup_insert_eq.
      * apply Hent in Hin as Hl.
        destruct (decide (el = EntryLink hdr0)) as [Heq|Hne].
        -- rewrite <- Heq in *. rewrite lookup_insert_eq. f_equal. symmetry. by apply He.
        -- by rewrite lookup_insert_ne.
Qed.


End WalkerFacts.

(** The walker never looks into an entry: it commutes with any change of the
    entries. *)
Lemma collect_map_entries {E E'} (f : E → E') (st : Store E) fuel cur :
  collect (map_entries f st) fuel cur =
    (map (λ v, (v.1, f v.2)) (collect st fuel cur).1, (collect st fuel cur).2).
Proof.
  revert cur. induction fuel as [|n IH]; intros [k|]; simpl; try done.
  destruct (Headers st !! k) as [hdr|]; [|done].
  rewrite lookup_fmap. destruct (Entries st !! EntryLink hdr) as [e|]; simpl; [|done].
  rewrite IH. by destruct (collect st n (HeaderLink hdr)).
Qed.

Lemma visits_map_entries {E E'} (f : E → E') (st : Store E) dir :
  visits (map_entries f st) dir = map (λ v, (v.1, f v.2)) (visits st dir).
Proof.
  destruct dir.
  - rewrite !visits_newest. unfold count. simpl. fold (count st).
    by rewrite collect_map_entries.
  - rewrite !visits_oldest. unfold count. simpl. fold (count st).
    rewrite collect_map_entries. simpl.
    destruct (collect st (count st) (Top st)) as [p [k|]]; simpl; [done|].
    by rewrite map_rev.
Qed.

(** *** The lifecycle *)
Section LifecycleFacts.
Context {Def : Type}.
Context (EncodeDNA : Def → option (list byte)).
Context (ContentHasher : list byte → Hash).
Context (HeaderId : Header → Hash).
Implicit Types (i : ChainInstance (Def := Def)).

Lemma Activate_unseeded i :
  Id i = None → Activate i = (i, Some NotSeededError).
Proof. unfold Activate. by intros ->. Qed.

Lemma Activate_seeded i id :
  Id i = Some id →
  (Activate i).2 = None ∧ State (Activate i).1 = Activated ∧ Id (Activate i).1 = Some id.
Proof. unfold Activate. by intros ->. Qed.

Lemma GenerateGenesis_again i id now :
  Id i = Some id →
  GenerateGenesis EncodeDNA HeaderId now i = (i, Some AlreadyInitializedError).
Proof. unfold GenerateGenesis. by intros ->. Qed.

Lemma GenerateGenesis_sets_Id i i1 now :
  GenerateGenesis EncodeDNA HeaderId now i = (i1, None) →
  Id i = None ∧ ∃ id, Id i1 = Some id ∧ DNAHash i = Some id ∧ State i1 = Genesis.
Proof.
  unfold GenerateGenesis. destruct (Id i); [done|].
  destruct (DNAHash i) as [d|]; [|done].
  destruct (EncodeDNA (DNA i)); [|done].
  intros; simplify_eq. eauto.
Qed.

Lemma step_keeps_Id op i id :
  ¬ is_Reset op → Id i = Some id →
  Id (step EncodeDNA ContentHasher HeaderId op i).1 = Some id ∧
  Chain (step EncodeDNA ContentHasher HeaderId op i).1 = Chain i.
Proof.
  intros Hop Hid. destruct op; simpl in *.
  - unfold Seed. by destruct (HashDNA _ _ _).
  - by rewrite (GenerateGenesis_again _ id).
  - unfold Activate. by rewrite Hid.
  - done.
Qed.

Lemma steps_keep_Id ops i id :
  Forall (λ op, ¬ is_Reset op) ops → Id i = Some id →
  Id (steps EncodeDNA ContentHasher HeaderId ops i) = Some id ∧
  Chain (steps EncodeDNA ContentHasher HeaderId ops i) = Chain i.
Proof.
  intros Hops. revert i. induction Hops as [|op ops Hop _ IH]; intros i Hid; [done|].
  unfold steps. simpl.
  destruct (step_keeps_Id op i id Hop Hid) as [H1 H2].
  destruct (IH _ H1) as [H3 H4]. unfold steps in *. by rewrite H3, H4.
Qed.
End LifecycleFacts.

(** *** The walk of a chain *)

Lemma three_committed : committed three.
Proof.
  unfold three. repeat (apply committed_commit; [| reflexivity | ]).
  - apply committed_empty.
  - intros e' He. by vm_compute in He.
  - intros e' He. by vm_compute in He.
  - intros e' He. by vm_compute in He.
Qed.

Example three_newest_first :
  map (λ v, v.1.1) (visits three NewestFirst) = ["h3"; "h2"; "h1"].
Proof. reflexivity. Qed.

Example three_oldest_first :
  map (λ v, v.1.1) (visits three OldestFirst) = ["h1"; "h2"; "h3"].
Proof. reflexivity. Qed.

Example cyclic_newest_first :
  (map (λ v, v.1.1) (Walk cyclic (Top cyclic) NewestFirst record []).1,
   (Walk cyclic (Top cyclic) NewestFirst record []).2)
  = (["a"; "b"], Some (ChainError CorruptChainError)).
Proof. reflexivity. Qed.




(** *** Genesis, once *)

(** C2. On an instance whose [Id] is set, [GenerateGenesis] fails with
    [AlreadyInitializedError] and leaves the instance as it is; and no
    sequence of lifecycle operations without [Reset] changes the [Id] or the
    committed headers and entries. *)
Theorem GenerateGenesis_only_once {Def : Type}
    (EncodeDNA : Def → option (list byte)) (ContentHasher : list byte → Hash)
    (HeaderId : Header → Hash) (i : ChainInstance (Def := Def)) (id : Hash) :
  Id i = Some id →
  (∀ now, GenerateGenesis EncodeDNA HeaderId now i
          = (i, Some AlreadyInitializedError)) ∧
  (∀ ops, Forall (λ op, ¬ is_Reset op) ops →
     Id (steps EncodeDNA ContentHasher HeaderId ops i) = Some id ∧
     Chain (steps EncodeDNA ContentHasher HeaderId ops i) = Chain i).
Proof.
  intros Hid. split.
  - intros now. by apply GenerateGenesis_again with id.
  - intros ops Hops. by apply steps_keep_Id.
Qed.

(** [alice] after Seed and GenerateGenesis. *)
Example alice_genesis :
  let i1 := steps text_EncodeDNA text_ContentHasher text_HeaderId
              [OpSeed; OpGenerateGenesis 7] alice in
  Id i1 = Some "Qmapp" ∧ State i1 = Genesis ∧ count (Chain i1) = 1.
Proof. by vm_compute. Qed.

Lemma GenerateGenesis_only_once_witness :
  let i1 := steps text_EncodeDNA text_ContentHasher text_HeaderId
              [OpSeed; OpGenerateGenesis 7] alice in
  (∀ now, GenerateGenesis text_EncodeDNA text_HeaderId now i1
          = (i1, Some AlreadyInitializedError)) ∧
  (∀ ops, Forall (λ op, ¬ is_Reset op) ops →
     Id (steps text_EncodeDNA text_ContentHasher text_HeaderId ops i1)
       = Some "Qmapp" ∧
     Chain (steps text_EncodeDNA text_ContentHasher text_HeaderId ops i1)
       = Chain i1).
Proof.
  apply (GenerateGenesis_only_once text_EncodeDNA text_ContentHasher text_HeaderId
           (steps text_EncodeDNA text_ContentHasher text_HeaderId
              [OpSeed; OpGenerateGenesis 7] alice) "Qmapp").
  reflexivity.
Defined.
End SpecTheory.

(** ** The output of dump *)
Section DumpFacts.
Context (L : Library).
Local Open Scope nat_scope.

Lemma feed_dump_visit vs s :
  let s' := feed (dump_visit L) vs s in
  idx s' = idx s + length vs ∧
  (∀ j, j < idx s → index s' !! j = index s !! j ∧ entries s' !! j = entries s !! j) ∧
  (∀ ks, ks ∉ map (λ v : Visit, HashString L v.1.1) vs → links s' !! ks = links s !! ks) ∧
  (∀ i v, vs !! i = Some v →
     index s' !! (idx s + i) = Some (HashString L v.1.1) ∧
     entries s' !! (idx s + i) = Some v.2) ∧
  (NoDup (map (λ v : Visit, HashString L v.1.1) vs) →
   ∀ v, v ∈ vs → links s' !! HashString L v.1.1 = Some v.1.2).
Proof.
  revert s. induction vs as [|[[k hdr] e] vs IH]; intros s; simpl.
  - split; [lia|]. split; [done|]. split; [done|]. split.
    + intros i v Hi. by rewrite lookup_nil in Hi.
    + intros _ v Hv. by apply elem_of_nil in Hv.
  - set (s1 := {| links := <[HashString L k:=hdr]> (links s);
                  index := <[idx s:=HashString L k]> (index s);
                  entries := <[idx s:=e]> (entries s);
                  idx := S (idx s) |}).
    destruct (IH s1) as (Hidx & Hframe & Hlinks & Hat & Hnd). simpl in *.
    split; [lia|]. split; [|split; [|split]].
    + intros j Hj. destruct (Hframe j) as [-> ->]; [lia|].
      rewrite !lookup_insert_ne by lia. done.
    + intros ks Hks. apply not_elem_of_cons in Hks as [Hne Hks].
      rewrite (Hlinks ks Hks). by rewrite lookup_insert_ne.
    + intros [|i] v Hi; simpl in Hi.
      * simplify_eq. simpl. rewrite Nat.add_0_r.
        destruct (Hframe (idx s)) as [-> ->]; [lia|].
        by rewrite !lookup_insert_eq.
      * destruct (Hat i v Hi) as [H1 H2].
        replace (idx s + S i) with (S (idx s + i)) by lia. done.
    + intros Hdup v Hv. apply NoDup_cons in Hdup as [Hk Hdup].
      apply elem_of_cons in Hv as [->|Hv].
      * simpl. rewrite (Hlinks _ Hk). by rewrite lookup_insert_eq.
      * by apply Hnd.
Qed.

Lemma dump_loop_cons s i js :
  dump_loop L s (i :: js) =
    let k := default "" (index s !! i) in
    let hdr := default zeroHeader (links s !! k) in
    let e := default EntryNil (entries s !! i) in
    match render L hdr e with
    | None => ([EvDumpHeader k hdr], Panicked)
    | Some r =>
        let '(evs, res) := dump_loop L s js in
        (EvDumpHeader k hdr :: EvDumpEntry r :: evs, res)
    end.
Proof. reflexivity. Qed.

Lemma dump_loop_print s vs j :
  (∀ i v, vs !! i = Some v →
     index s !! (j + i) = Some (HashString L v.1.1) ∧
     entries s !! (j + i) = Some v.2 ∧
     links s !! HashString L v.1.1 = Some v.1.2) →
  dump_loop L s (seq j (length vs)) = print_visits L vs.
Proof.
  revert j. induction vs as [|[[k hdr] e] vs IH]; intros j Hvs; [done|].
  cbn [length seq]. rewrite dump_loop_cons. cbn [print_visits].
  destruct (Hvs 0 (k, hdr, e) eq_refl) as (Hi & He & Hl). simpl in Hi, He, Hl.
  rewrite Nat.add_0_r in Hi, He. rewrite Hi. simpl. rewrite Hl, He. simpl.
  destruct (render L hdr e); [|done].
  rewrite (IH (S j)); [done|].
  intros i v Hv. specialize (Hvs (S i) v Hv).
  by replace (S j + i) with (j + S i) by lia.
Qed.

(** The two passes of [dump] (the maps filled by the callback, then the
    print loop) print the visited triples one by one, in the order of the
    walk, when the walk visits no header twice. *)
Lemma dump_prints_visits vs :
  NoDup (map (λ v : Visit, HashString L v.1.1) vs) →
  dump_loop L (feed (dump_visit L) vs dump_init)
    (seq 0 (idx (feed (dump_visit L) vs dump_init)))
  = print_visits L vs.
Proof.
  intros Hnd.
  destruct (feed_dump_visit vs dump_init) as (Hidx & _ & _ & Hat & Hlinks).
  simpl in *. rewrite Hidx. apply dump_loop_print.
  intros i v Hv. destruct (Hat i v Hv) as [H1 H2].
  split; [done|]. split; [done|]. apply Hlinks; [done|].
  by eapply list_elem_of_lookup_2.
Qed.

Lemma render_DNA hdr b :
  Type' hdr = DNAEntryType L →
  render L hdr (EntryBytes b) = Some (RawBytes (String.string_of_list_byte b)).
Proof. unfold render. intros ->. by rewrite String.eqb_refl. Qed.

Lemma render_Key hdr k :
  Type' hdr = KeyEntryType L → KeyEntryType L ≠ DNAEntryType L →
  render L hdr (EntryKey k) = Some (KeyFields k).
Proof.
  unfold render. intros -> Hne. apply String.eqb_neq in Hne. rewrite Hne.
  by rewrite String.eqb_refl.
Qed.

Lemma render_other hdr e :
  Type' hdr ≠ DNAEntryType L → Type' hdr ≠ KeyEntryType L →
  render L hdr e = Some (Generic e).
Proof.
  unfold render. intros H1 H2. apply String.eqb_neq in H1, H2. by rewrite H1, H2.
Qed.
End DumpFacts.

Section DumpAction.
Context (L : Library).

(** What [dump] does once the chain is loaded and has an id: it prints the
    id, walks the chain with its callback, and runs the print loop on what
    the callback stored. *)
Lemma dump_trace g c (w : World L) name w1 id w2 vs err w3 :
  initialized g = true → First (Args c) = name → name ≠ "" →
  Load L (service g) name w = (None, w1) →
  ID L name w1 = ((id, None), w2) →
  Walk L name true w2 = ((vs, err), w3) →
  dump L g c w =
    ((dump_loop L (feed (dump_visit L) vs dump_init)
        (seq 0 (idx (feed (dump_visit L) vs dump_init)))).2,
     w3,
     [EvLoad name true; EvID name true; EvDumpChain id;
      EvWalk name true (is_nil err)]
     ++ (dump_loop L (feed (dump_visit L) vs dump_init)
           (seq 0 (idx (feed (dump_visit L) vs dump_init)))).1).
Proof.
  intros Hi Hn Hne Hl Hid Hw. unfold_action. rewrite Hi, Hn. simpl.
  apply String.eqb_neq in Hne. rewrite Hne, Hl. simpl. rewrite Hid. simpl.
  rewrite Hw. simpl. by destruct (dump_loop L _ _).
Qed.

Lemma render_by_type hdr e r :
  render L hdr e = Some r →
  (Type' hdr = DNAEntryType L →
     ∃ b, e = EntryBytes b ∧ r = RawBytes (String.string_of_list_byte b)) ∧
  (Type' hdr ≠ DNAEntryType L → Type' hdr = KeyEntryType L →
     ∃ k, e = EntryKey k ∧ r = KeyFields k) ∧
  (Type' hdr ≠ DNAEntryType L → Type' hdr ≠ KeyEntryType L → r = Generic e).
Proof.
  unfold render.
  destruct (String.eqb_spec (Type' hdr) (DNAEntryType L)) as [Hd|Hd].
  - destruct e; intros; simplify_eq. split; [eauto|]. split; done.
  - destruct (String.eqb_spec (Type' hdr) (KeyEntryType L)) as [Hk|Hk].
    + destruct e; intros; simplify_eq. split; [done|]. split; [eauto|done].
    + intros; simplify_eq. split; [done|]. split; done.
Qed.

(** In the print loop every entry line comes right after the lines of its
    header, and is the rendering of an entry under that header. *)
Lemma dump_loop_entry s js pre k hdr r post :
  (dump_loop L s js).1 = pre ++ EvDumpHeader k hdr :: EvDumpEntry r :: post →
  ∃ e, render L hdr e = Some r.
Proof.
  revert pre. induction js as [|j js IH]; intros pre Heq.
  - by destruct pre.
  - rewrite dump_loop_cons in Heq. simpl in Heq.
    destruct (render L _ _) as [r0|] eqn:Hr.
    + destruct (dump_loop L s js) as [evs res]. simpl in *.
      destruct pre as [|x [|y pre]]; simplify_eq/=.
      * by eexists.
      * by eapply IH.
    + simpl in Heq. destruct pre as [|x [|y pre]]; simplify_eq/=.
Qed.

Lemma dump_action_entry g c (w : World L) pre k hdr r post :
  trace_of L (dump L g c w) = pre ++ EvDumpHeader k hdr :: EvDumpEntry r :: post →
  ∃ e, render L hdr e = Some r.
Proof.
  unfold_action; unfold uninitialized;
    repeat (simpl; case_match; simplify_eq/=); simpl; intros Heq.
  all: repeat match goal with
       | H : _ :: _ = ?p ++ _ :: _ :: _ |- _ => destruct p; simplify_eq/=
       | H : [] = ?p ++ _ :: _ :: _ |- _ => by destruct p
       end.
  all: match goal with
       | H : dump_loop _ ?s ?js = (_, _) |- _ =>
           eapply (dump_loop_entry s js); by rewrite H
       end.
Qed.
(** An entry line of the direct reading is the rendering of a visited
    triple, under the header of that triple. *)
Lemma print_visits_entry vs pre k hdr r post :
  (print_visits L vs).1 = pre ++ EvDumpHeader k hdr :: EvDumpEntry r :: post →
  ∃ kh e, (kh, hdr, e) ∈ vs ∧ k = HashString L kh ∧ render L hdr e = Some r.
Proof.
  revert pre. induction vs as [|[[kh0 hdr0] e0] vs IH]; intros pre Heq.
  - by destruct pre.
  - simpl in Heq. destruct (render L hdr0 e0) as [r0|] eqn:Hr.
    + destruct (print_visits L vs) as [evs res]. simpl in *.
      destruct pre as [|x [|y pre]]; simplify_eq/=.
      * exists kh0, e0. split; [apply list_elem_of_here|done].
      * destruct (IH pre eq_refl) as (kh & e & Hin & Hk & Hre).
        exists kh, e. split; [by apply list_elem_of_further|done].
    + simpl in Heq. destruct pre as [|x [|y pre]]; simplify_eq/=.
Qed.

Lemma dump_action_visit g c (w : World L) name w1 id w2 vs err w3
    pre k hdr r post :
  initialized g = true → First (Args c) = name → name ≠ "" →
  Load L (service g) name w = (None, w1) →
  ID L name w1 = ((id, None), w2) →
  Walk L name true w2 = ((vs, err), w3) →
  NoDup (map (λ v : Visit, HashString L v.1.1) vs) →
  trace_of L (dump L g c w) = pre ++ EvDumpHeader k hdr :: EvDumpEntry r :: post →
  ∃ kh e, (kh, hdr, e) ∈ vs ∧ k = HashString L kh ∧ render L hdr e = Some r.
Proof.
  intros Hi Hn Hne Hl Hid Hw Hnd.
  rewrite (dump_trace g c w name w1 id w2 vs err w3) by done.
  rewrite (dump_prints_visits L vs Hnd). unfold trace_of. simpl. intros Heq.
  do 4 (destruct pre as [|? pre]; simplify_eq/=).
  by eapply print_visits_entry.
Qed.
End DumpAction.

Lemma committed_visits_NoDup {E} (st : Spec.Store E) dir :
  Spec.committed st → NoDup (map (λ v, v.1.1) (Spec.visits st dir)).
Proof.
  intros Hc.
  destruct (SpecTheory.committed_collect st Hc) as (p & Hp & _ & Hnd & _ & _).
  destruct dir.
  - by rewrite SpecTheory.visits_newest, Hp.
  - rewrite SpecTheory.visits_oldest, Hp. simpl. rewrite map_rev.
    by apply NoDup_ListNoDup, List.NoDup_rev, NoDup_ListNoDup.
Qed.

(** C8. The walker hands to the callback, for each header it visits, the
    identifier, the header and the entry the header links to, and commutes
    with any change of the entries: it does not look into them.  The action
    [dump] loads the chain, asks for its id, walks the chain with a callback
    that stores each triple, and then prints the stored triples in the
    order of the walk: its run is the four calls followed by the lines of
    the visited triples, for any walk that visits no header twice, and so
    for the walk of a committed store.  Each entry line of [dump] comes
    right after the lines of a header and is chosen by the type of that
    header alone: the bytes of a DNA entry as a string, a key entry as a
    struct, anything else as it is. *)
Theorem walker_type_agnostic_dump_renders_by_type :
  (∀ (E : Type) (st : Spec.Store E) (dir : Spec.Direction) k hdr e,
     Spec.committed st → (k, hdr, e) ∈ Spec.visits st dir →
     Spec.Headers st !! k = Some hdr ∧
     Spec.Entries st !! EntryLink hdr = Some e) ∧
  (∀ (E E' : Type) (f : E → E') (st : Spec.Store E) (dir : Spec.Direction),
     Spec.visits (Spec.map_entries f st) dir
     = map (λ v, (v.1, f v.2)) (Spec.visits st dir)) ∧
  (∀ (L : Library) (vs : list Visit),
     NoDup (map (λ v : Visit, HashString L v.1.1) vs) →
     dump_loop L (feed (dump_visit L) vs dump_init)
       (seq 0 (idx (feed (dump_visit L) vs dump_init)))
     = print_visits L vs) ∧
  (∀ (L : Library) hdr b, Type' hdr = DNAEntryType L →
     render L hdr (EntryBytes b) = Some (RawBytes (String.string_of_list_byte b))) ∧
  (∀ (L : Library) hdr k,
     Type' hdr = KeyEntryType L → KeyEntryType L ≠ DNAEntryType L →
     render L hdr (EntryKey k) = Some (KeyFields k)) ∧
  (∀ (L : Library) hdr e,
     Type' hdr ≠ DNAEntryType L → Type' hdr ≠ KeyEntryType L →
     render L hdr e = Some (Generic e)) ∧
  (∀ (L : Library) g c (w w1 w2 w3 : World L) name id vs err,
     initialized g = true → First (Args c) = name → name ≠ "" →
     Load L (service g) name w = (None, w1) →
     ID L name w1 = ((id, None), w2) →
     Walk L name true w2 = ((vs, err), w3) →
     NoDup (map (λ v : Visit, HashString L v.1.1) vs) →
     dump L g c w =
       ((print_visits L vs).2, w3,
        [EvLoad name true; EvID name true; EvDumpChain id;
         EvWalk name true (is_nil err)] ++ (print_visits L vs).1)) ∧
  (∀ (L : Library) g c (w w1 w2 w3 : World L) name id
     (st : Spec.Store Entry) (dir : Spec.Direction) err,
     initialized g = true → First (Args c) = name → name ≠ "" →
     Load L (service g) name w = (None, w1) →
     ID L name w1 = ((id, None), w2) →
     Walk L name true w2 = ((Spec.visits st dir, err), w3) →
     Spec.committed st →
     Inj (=) (=) (HashString L) →
     dump L g c w =
       ((print_visits L (Spec.visits st dir)).2, w3,
        [EvLoad name true; EvID name true; EvDumpChain id;
         EvWalk name true (is_nil err)]
        ++ (print_visits L (Spec.visits st dir)).1)) ∧
  (∀ (L : Library) g c (w w1 w2 w3 : World L) name id vs err
     pre k hdr r post,
     initialized g = true → First (Args c) = name → name ≠ "" →
     Load L (service g) name w = (None, w1) →
     ID L name w1 = ((id, None), w2) →
     Walk L name true w2 = ((vs, err), w3) →
     NoDup (map (λ v : Visit, HashString L v.1.1) vs) →
     trace_of L (dump L g c w)
       = pre ++ EvDumpHeader k hdr :: EvDumpEntry r :: post →
     ∃ kh e, (kh, hdr, e) ∈ vs ∧ k = HashString L kh ∧
       (Type' hdr = DNAEntryType L →
          ∃ b, e = EntryBytes b ∧ r = RawBytes (String.string_of_list_byte b)) ∧
       (Type' hdr ≠ DNAEntryType L → Type' hdr = KeyEntryType L →
          ∃ ke, e = EntryKey ke ∧ r = KeyFields ke) ∧
       (Type' hdr ≠ DNAEntryType L → Type' hdr ≠ KeyEntryType L →
          r = Generic e)) ∧
  (∀ (L : Library) g c (w : World L) pre k hdr r post,
     trace_of L (dump L g c w)
       = pre ++ EvDumpHeader k hdr :: EvDumpEntry r :: post →
     ∃ e,
       (Type' hdr = DNAEntryType L →
          ∃ b, e = EntryBytes b ∧ r = RawBytes (String.string_of_list_byte b)) ∧
       (Type' hdr ≠ DNAEntryType L → Type' hdr = KeyEntryType L →
          ∃ ke, e = EntryKey ke ∧ r = KeyFields ke) ∧
       (Type' hdr ≠ DNAEntryType L → Type' hdr ≠ KeyEntryType L →
          r = Generic e)).
Proof.
  split; [|split; [|split; [|split; [|split; [|split; [|split; [|split; [|split]]]]]]]].
  - intros E st dir k hdr e Hc Hin.
    destruct (SpecTheory.committed_collect st Hc) as (p & Hp & _ & _ & Hall & Hent).
    assert ((k, hdr, e) ∈ p) as Hp'.
    { destruct dir.
      - by rewrite SpecTheory.visits_newest, Hp in Hin.
      - rewrite SpecTheory.visits_oldest, Hp in Hin. simpl in Hin.
        by apply list_elem_of_In, in_rev, list_elem_of_In in Hin. }
    split; [apply Hall; eauto|by apply (Hent k)].
  - intros. apply SpecTheory.visits_map_entries.
  - intros. by apply dump_prints_visits.
  - intros. by apply render_DNA.
  - intros. by apply render_Key.
  - intros. by apply render_other.
  - intros L g c w w1 w2 w3 name id vs err Hi Hn Hne Hl Hid Hw Hnd.
    rewrite (dump_trace L g c w name w1 id w2 vs err w3) by done.
    by rewrite (dump_prints_visits L vs Hnd).
  - intros L g c w w1 w2 w3 name id st dir err Hi Hn Hne Hl Hid Hw Hc Hinj.
    rewrite (dump_trace L g c w name w1 id w2 _ err w3) by done.
    rewrite (dump_prints_visits L); [done|].
    replace (map (λ v : Visit, HashString L v.1.1) (Spec.visits st dir))
      with (HashString L <$> (map (λ v : Visit, v.1.1) (Spec.visits st dir)))
      by (by rewrite <- list_fmap_compose).
    apply NoDup_fmap_2; [done|]. by apply committed_visits_NoDup.
  - intros L g c w w1 w2 w3 name id vs err pre k hdr r post
      Hi Hn Hne Hl Hid Hw Hnd Htr.
    destruct (dump_action_visit L g c w name w1 id w2 vs err w3 pre k hdr r post)
      as (kh & e & Hin & Hk & He); try done.
    exists kh, e. split; [done|]. split; [done|]. by apply render_by_type.
  - intros L g c w pre k hdr r post Htr.
    destruct (dump_action_entry L g c w pre k hdr r post Htr) as [e He].
    exists e. by apply render_by_type.
Qed.

Example dump_three :
  print_visits (ScriptLib all_nil) (Spec.visits Spec.three Spec.OldestFirst) =
    ([EvDumpHeader "h1" (mkHeader "DNA" 1 None None "e1");
      EvDumpEntry (RawBytes "");
      EvDumpHeader "h2" (mkHeader "key" 2 (Some "h1") None "e2");
      EvDumpEntry (KeyFields (mkKeyEntry []));
      EvDumpHeader "h3" (mkHeader "post" 3 (Some "h2") None "e3");
      EvDumpEntry (Generic (EntryOther "third"))],
     Returned None).
Proof. reflexivity. Qed.

Lemma walker_type_agnostic_dump_renders_by_type_witness :
  dump (ScriptLib (walks (Spec.visits Spec.three Spec.OldestFirst) None))
    alice_globals alice_context tt =
    ((print_visits (ScriptLib (walks (Spec.visits Spec.three Spec.OldestFirst) None))
        (Spec.visits Spec.three Spec.OldestFirst)).2,
     tt,
     [EvLoad "alice" true; EvID "alice" true; EvDumpChain "QmId";
      EvWalk "alice" true (is_nil None)]
     ++ (print_visits (ScriptLib (walks (Spec.visits Spec.three Spec.OldestFirst) None))
           (Spec.visits Spec.three Spec.OldestFirst)).1).
Proof.
  apply (proj1 (proj2 (proj2 (proj2 (proj2 (proj2 (proj2 (proj2
           walker_type_agnostic_dump_renders_by_type)))))))
           (ScriptLib (walks (Spec.visits Spec.three Spec.OldestFirst) None))
           alice_globals alice_context tt tt tt tt "alice" "QmId"
           Spec.three Spec.OldestFirst None).
  - reflexivity.
  - reflexivity.
  - discriminate.
  - reflexivity.
  - reflexivity.
  - reflexivity.
  - apply SpecTheory.three_committed.
  - intros x y Hxy. exact Hxy.
Defined.

(** [hc dump alice] on a chain of three headers, a DNA entry, a key entry
    and another one. *)
Example dump_walks_three :
  run (ScriptLib (walks (Spec.visits Spec.three Spec.OldestFirst) None))
      (invoke CmdDump ["alice"]) tt
  = (Returned None, tt,
     [EvLoadService true; EvLoad "alice" true; EvID "alice" true;
      EvDumpChain "QmId"; EvWalk "alice" true true;
      EvDumpHeader "h1" (mkHeader "DNA" 1 None None "e1");
      EvDumpEntry (RawBytes "");
      EvDumpHeader "h2" (mkHeader "key" 2 (Some "h1") None "e2");
      EvDumpEntry (KeyFields (mkKeyEntry []));
      EvDumpHeader "h3" (mkHeader "post" 3 (Some "h2") None "e3");
      EvDumpEntry (Generic (EntryOther "third"))]).
Proof. reflexivity. Qed.

(** ** Activation and genesis *)

Lemma split_after_before (tb ta pre post : list Event) (e : Event) :
  Forall is_before tb → ¬ is_before e →
  tb ++ ta = pre ++ e :: post →
  ∃ pre2, pre = tb ++ pre2 ∧ ta = pre2 ++ e :: post.
Proof.
  intros Hb He. revert pre. induction Hb as [|x tb Hx _ IH]; intros pre Heq.
  - by exists pre.
  - destruct pre as [|y pre]; simplify_eq/=; [done|].
    destruct (IH pre) as (pre2 & -> & ->); [done|]. by exists pre2.
Qed.

Lemma run_split (L : Library) inv w pre e post :
  ¬ is_before e →
  trace_of L (run L inv w) = pre ++ e :: post →
  ∃ g w1 tb pre2,
    Forall is_before tb ∧ pre = tb ++ pre2 ∧
    trace_of L (action L (command inv) g (context inv) w1) = pre2 ++ e :: post.
Proof.
  intros He.
  destruct (run_action L inv w) as (tb & Hb & [(x & w' & ->)|(g & w1 & _ & ->)]).
  - unfold trace_of. simpl. intros Heq. exfalso. apply He.
    rewrite Forall_forall in Hb. apply Hb. rewrite Heq. set_solver.
  - destruct (action L _ g _ w1) as [[r w2] ta] eqn:Ea. unfold trace_of. simpl.
    intros Heq. destruct (split_after_before tb ta pre post e Hb He Heq)
      as (pre2 & -> & ->).
    exists g, w1, tb, pre2. by rewrite Ea.
Qed.

(** A library that keeps the guard of the lifecycle ([Activate] fails on a
    chain without an id, and neither [Load] nor [GenDNAHashes] gives it one)
    makes [genChain] fail on such a chain before it reaches [GenChain]. *)
Lemma genChain_blocked_by_guard (L : Library) (unset : string → World L → Prop)
    (s : Service) (name : string) (w : World L) :
  (∀ s n w, unset n w → unset n (Load L s n w).2) →
  (∀ n w, unset n w → unset n (GenDNAHashes L n w).2) →
  (∀ n w, unset n w → (Activate L n w).1 ≠ None) →
  unset name w →
  result_of L (genChain L s name w) ≠ None ∧
  ∀ b, EvGenChain name b ∉ trace_of L (genChain L s name w).
Proof.
  intros HL HG HA Hu. unfold genChain. unfold_M.
  specialize (HL s name w Hu). destruct (Load L s name w) as [[e1|] w1]; simpl in *.
  { split; [done|]. intros b Hin. elem_cases Hin. }
  specialize (HG name w1 HL).
  destruct (GenDNAHashes L name w1) as [[e2|] w2]; simpl in *.
  { split; [done|]. intros b Hin. elem_cases Hin. }
  specialize (HA name w2 HG).
  destruct (Activate L name w2) as [[e3|] w3]; simpl in *; [|done].
  split; [done|]. intros b Hin. elem_cases Hin.
Qed.

Example gen_chain_guarded :
  run (ScriptLib guarded) (invoke CmdGenChain ["alice"]) tt
  = (Returned (Some {| Kind := Some NotSeededError; Error := "chain not seeded" |}),
     tt,
     [EvLoadService true; EvLoad "alice" true; EvGenDNAHashes "alice" true;
      EvActivate "alice" false]).
Proof. reflexivity. Qed.

Example genChain_blocked_guarded :
  result_of (ScriptLib guarded) (genChain (ScriptLib guarded) loadedService "alice" tt)
    ≠ None ∧
  ∀ b, EvGenChain "alice" b
         ∉ trace_of (ScriptLib guarded)
             (genChain (ScriptLib guarded) loadedService "alice" tt).
Proof.
  apply (genChain_blocked_by_guard (ScriptLib guarded) (λ _ _, True)); done.
Qed.

(** C1, as stated, fails: in the run of [join] in which every call returns
    nil, [Activate] succeeds on the chain before [GenChain] is called on
    it. *)
Lemma join_activates_before_genesis :
  ¬ genesis_before_Activate
      (session_trace (ScriptLib all_nil) [invoke CmdJoin ["/src/app"; "alice"]] tt).
Proof.
  intros H.
  specialize (H [EvLoadService true; EvClone "/src/app" "/holo/alice" false true;
                 EvLoad "alice" true; EvGenDNAHashes "alice" true]
                "alice"
                [EvGenChain "alice" true; EvGoHandlePutReqs "alice";
                 EvID "alice" true] eq_refl).
  elem_cases H.
Qed.

(** C1, amended. [Activate], as the lifecycle describes it, fails with
    [NotSeededError] on an instance whose [Id] is unset and leaves it as it
    is.  [serve] calls [Activate] only after [ID] has returned an id.  The
    flow of [join] and [gen chain] calls [GenChain] only right after
    [Activate] has returned nil, and not before: there activation comes
    before the genesis is generated; and against a library whose [Activate]
    fails on every chain without an id, that flow fails on such a chain
    before it reaches [GenChain]. *)
Theorem activation_order :
  (∀ (Def : Type) (i : Spec.ChainInstance (Def := Def)),
     Spec.Id i = None → Spec.Activate i = (i, Some NotSeededError)) ∧
  (∀ (L : Library) inv (w : World L) h b pre post,
     command inv = CmdServe →
     trace_of L (run L inv w) = pre ++ EvActivate h b :: post →
     EvID h true ∈ pre) ∧
  (∀ (L : Library) inv (w : World L) h b pre post,
     trace_of L (run L inv w) = pre ++ EvGenChain h b :: post →
     ∃ pre', pre = pre' ++ [EvActivate h true] ∧
             ∀ e, e ∈ pre' → ¬ is_GenChain h e) ∧
  (∀ (L : Library) (unset : string → World L → Prop) s name (w : World L),
     (∀ s n w, unset n w → unset n (Load L s n w).2) →
     (∀ n w, unset n w → unset n (GenDNAHashes L n w).2) →
     (∀ n w, unset n w → (Activate L n w).1 ≠ None) →
     unset name w →
     result_of L (genChain L s name w) ≠ None ∧
     ∀ b, EvGenChain name b ∉ trace_of L (genChain L s name w)).
Proof.
  split; [|split; [|split]].
  - intros Def i. apply SpecTheory.Activate_unseeded.
  - intros L inv w h b pre post Hc Htr.
    apply run_split in Htr as (g & w1 & tb & pre2 & _ & -> & Hact); [|simpl; tauto].
    rewrite Hc in Hact. simpl in Hact.
    apply action_serve_Activate_after_ID in Hact. set_solver.
  - intros L inv w h b pre post Htr.
    apply run_split in Htr as (g & w1 & tb & pre2 & Hb & -> & Hact); [|simpl; tauto].
    apply action_GenChain_after_Activate in Hact as (pre' & -> & Hno).
    exists (tb ++ pre'). split; [by rewrite app_assoc|].
    intros e He. apply elem_of_app in He as [He|He]; [|by apply Hno].
    rewrite Forall_forall in Hb. apply Hb in He. destruct e; simpl in *; tauto.
  - intros L unset s name w. apply genChain_blocked_by_guard.
Qed.

Lemma activation_order_witness :
  ∃ pre',
    [EvLoadService true; EvClone "/src/app" "/holo/alice" false true;
     EvLoad "alice" true; EvGenDNAHashes "alice" true; EvActivate "alice" true]
    = pre' ++ [EvActivate "alice" true] ∧
    ∀ e, e ∈ pre' → ¬ is_GenChain "alice" e.
Proof.
  apply (proj1 (proj2 (proj2 activation_order)) (ScriptLib all_nil)
           (invoke CmdJoin ["/src/app"; "alice"]) tt "alice" true
           [EvLoadService true; EvClone "/src/app" "/holo/alice" false true;
            EvLoad "alice" true; EvGenDNAHashes "alice" true;
            EvActivate "alice" true]
           [EvGoHandlePutReqs "alice"; EvID "alice" true]).
  reflexivity.
Defined.

(** * More about the command actions *)

(** X1. When the service is not initialized, every command that works on
    the service or on a chain returns the error "service not initialized, run
    'hc init'" and calls nothing. *)
Theorem uninitialized_service_stops
    (L : Library) (cmd : Command) (g : Globals) (c : Context) (w : World L) :
  needs_service cmd = true →
  initialized g = false →
  action L cmd g c w =
    (Returned (errors_New "service not initialized, run 'hc init'"), w, []).
Proof.
  intros Hn Hi. destruct cmd; try discriminate Hn; unfold_action;
    unfold uninitialized; rewrite Hi; reflexivity.
Qed.

Lemma uninitialized_service_stops_witness :
  action (ScriptLib all_nil) CmdServe
    {| force := false; verbose := false; root := "/holo";
       service := nilService; initialized := false |} alice_context tt =
    (Returned (errors_New "service not initialized, run 'hc init'"), tt, []).
Proof.
  apply (uninitialized_service_stops (ScriptLib all_nil) CmdServe); reflexivity.
Defined.

(** X2. On an initialized service, a command that needs the name of a chain
    and gets none (no argument, or an empty first one) returns "missing
    required holochain-name argument to " followed by its own name, and
    calls nothing. *)
Theorem missing_name_stops
    (L : Library) (cmd : Command) (name : string) (g : Globals) (c : Context)
    (w : World L) :
  command_name cmd = Some name →
  initialized g = true →
  First (Args c) = "" →
  action L cmd g c w =
    (Returned (errors_New ("missing required holochain-name argument to " +:+ name)),
     w, []).
Proof.
  intros Hn Hi Hf. destruct cmd; simplify_eq/=; unfold_action;
    rewrite Hi, Hf; reflexivity.
Qed.

Lemma missing_name_stops_witness :
  action (ScriptLib all_nil) CmdGenChain alice_globals
    {| Args := []; osArgs := ["hc"; "gen"; "chain"] |} tt =
    (Returned (errors_New "missing required holochain-name argument to gen chain"),
     tt, []).
Proof.
  apply (missing_name_stops (ScriptLib all_nil) CmdGenChain "gen chain");
    reflexivity.
Defined.

(** X3. A run stops at the first call whose error its action hands on: that
    call is the last event of the run, and the run returns a non-nil error. *)
Lemma action_fail_stop (L : Library) cmd g c (w : World L) pre e post :
  trace_of L (action L cmd g c w) = pre ++ e :: post →
  fatal cmd e →
  post = [] ∧ ∃ err, result_of L (action L cmd g c w) = Returned (Some err).
Proof.
  destruct cmd; unfold_action; paths; intros Hsplit Hfatal.
  all: simpl in *; rewrite ?app_nil_r in *.
  all: repeat match goal with
       | H : _ :: _ = ?pre ++ _ :: _ |- _ => destruct pre; simplify_eq/=
       | H : [] = ?pre ++ _ :: _ |- _ => by destruct pre
       end.
  all: try done.
  all: try (split; [done|]; by eexists).
  all: try (match goal with
            | H : is_nil ?x = false |- _ => destruct x; [|discriminate H]
            end; split; [done|]; by eexists).
  all: repeat match goal with
       | H : ?t = _ ++ _ :: _ |- _ => is_var t; subst t
       | F : Forall _ (_ ++ _ :: _) |- _ =>
           rewrite Forall_app, Forall_cons in F; destruct F as (_ & F & _)
       end.
  all: match goal with H : fatal _ ?x |- _ => destruct x; simpl in *; done end.
Qed.

(** The action of a run, with the variables [app.Before] left to it, around
    an event of the action. *)
Lemma run_split_globals (L : Library) inv (w : World L) pre e post :
  ¬ is_before e →
  trace_of L (run L inv w) = pre ++ e :: post →
  ∃ g w1 tb pre2,
    root g = resolved_root L inv ∧
    force g = force_of (command inv) ∧
    initialized g = IsInitialized L (root g) w ∧
    pre = tb ++ pre2 ∧
    trace_of L (action L (command inv) g (context inv) w1) = pre2 ++ e :: post ∧
    result_of L (run L inv w) = result_of L (action L (command inv) g (context inv) w1).
Proof.
  intros He Htr.
  destruct (run_globals L inv w)
    as [(home & x & _ & _ & _ & Hr)|[(x & w' & _ & _ & Hr)
       |(g & w1 & tb & Hroot & Hf & Hi & Htb & Hr)]];
    rewrite Hr in *; clear Hr.
  - by destruct pre.
  - unfold trace_of in Htr. simpl in Htr.
    destruct pre as [|? [|? ?]]; simplify_eq/=. by destruct He.
  - destruct (action L _ g _ w1) as [[r w2] ta] eqn:Ea.
    unfold trace_of, result_of in *. simpl in *.
    destruct (split_after_before tb ta pre post e) as (pre2 & -> & ->); [|done|done|].
    { destruct Htb as [(_ & _ & _ & ->)|(_ & _ & _ & ->)]; repeat constructor. }
    exists g, w1, tb, pre2. by rewrite Ea.
Qed.

Lemma run_elem_globals (L : Library) inv (w : World L) e :
  ¬ is_before e →
  e ∈ trace_of L (run L inv w) →
  ∃ g w1,
    root g = resolved_root L inv ∧
    force g = force_of (command inv) ∧
    initialized g = IsInitialized L (root g) w ∧
    e ∈ trace_of L (action L (command inv) g (context inv) w1) ∧
    result_of L (run L inv w) = result_of L (action L (command inv) g (context inv) w1).
Proof.
  intros He Hin. apply list_elem_of_split in Hin as (pre & post & Htr).
  apply run_split_globals in Htr as (g & w1 & tb & pre2 & ? & ? & ? & ? & Ha & ?); [|done].
  exists g, w1. repeat split; try done. rewrite Ha. set_solver.
Qed.

Theorem run_fail_stop
    (L : Library) (inv : Invocation) (w : World L) (pre post : list Event)
    (e : Event) :
  trace_of L (run L inv w) = pre ++ e :: post →
  fatal (command inv) e →
  post = [] ∧ ∃ err, result_of L (run L inv w) = Returned (Some err).
Proof.
  intros Htr Hfatal.
  destruct (run_globals L inv w)
    as [(home & x & _ & _ & _ & Hr)|[(x & w' & _ & _ & Hr)
       |(g & w1 & tb & _ & _ & _ & Htb & Hr)]];
    rewrite Hr in *; clear Hr.
  - by destruct pre.
  - unfold trace_of, result_of in *. simpl in *.
    destruct pre as [|? [|? ?]]; simplify_eq/=. split; [done|by eexists].
  - pose proof (action_fail_stop L (command inv) g (context inv) w1) as Hact.
    destruct (action L _ g _ w1) as [[r w2] ta].
    unfold trace_of, result_of in *. simpl in *.
    destruct Htb as [(_ & _ & _ & ->)|(_ & _ & _ & ->)]; simpl in Htr.
    + by eapply Hact.
    + destruct pre as [|y pre]; simplify_eq/=. by eapply Hact.
Qed.

Lemma run_fail_stop_witness :
  [] = ([] : list Event) ∧
  ∃ err, result_of (ScriptLib guarded)
           (run (ScriptLib guarded) (invoke CmdServe ["alice"]) tt)
         = Returned (Some err).
Proof.
  apply (run_fail_stop (ScriptLib guarded) (invoke CmdServe ["alice"]) tt
           [EvLoadService true; EvLoad "alice" true] [] (EvID "alice" false)).
  - reflexivity.
  - reflexivity.
Defined.

(** X4. The index expressions [c.Args()[1]] of [clone], [join], [dev] and
    [serve] are never out of range: only [call] (on [os.Args]) and [dump]
    (on a type assertion) can panic. *)
Lemma action_panic (L : Library) cmd g c (w : World L) :
  result_of L (action L cmd g c w) = Panicked → cmd = CmdCall ∨ cmd = CmdDump.
Proof.
  destruct c as [[|a [|b rest]] os].
  all: destruct cmd; unfold_action; paths; intros Hr; simplify_eq/=; auto.
  unfold uninitialized in *. by destruct (initialized g).
Qed.

Theorem only_call_and_dump_panic
    (L : Library) (inv : Invocation) (w : World L) :
  result_of L (run L inv w) = Panicked →
  command inv = CmdCall ∨ command inv = CmdDump.
Proof.
  destruct (run_action L inv w) as (tb & _ & [(x & w' & ->)|(g & w1 & _ & ->)]).
  - done.
  - pose proof (action_panic L (command inv) g (context inv) w1) as Hact.
    destruct (action L _ g _ w1) as [[r w2] ta]. unfold result_of in *. simpl in *.
    done.
Qed.

Lemma only_call_and_dump_panic_witness :
  command (invoke CmdCall ["alice"]) = CmdCall
  ∨ command (invoke CmdCall ["alice"]) = CmdDump.
Proof.
  apply (only_call_and_dump_panic (ScriptLib all_nil) (invoke CmdCall ["alice"]) tt).
  reflexivity.
Defined.

(** X5. Once the chain is loaded, [call] panics exactly when [os.Args] has
    fewer than five elements; otherwise it calls [Call] once, with the zome
    [os.Args[3]], the function [os.Args[4]] and the elements from the sixth
    on joined by single spaces (the empty string when there is none), and
    returns the error of [Call]. *)
Theorem call_reads_os_Args
    (L : Library) (g : Globals) (c : Context) (w w1 : World L) (name : string) :
  initialized g = true →
  First (Args c) = name →
  name ≠ "" →
  Load L (service g) name w = (None, w1) →
  (length (osArgs c) < 5 →
     call_cmd L g c w = (Panicked, w1, [EvLoad name true])) ∧
  (5 ≤ length (osArgs c) →
     ∃ zome function,
       osArgs c !! 3 = Some zome ∧ osArgs c !! 4 = Some function ∧
       call_cmd L g c w =
         (Returned (Call L name zome function
                      (String.concat " " (drop 5 (osArgs c))) w1).1,
          (Call L name zome function
             (String.concat " " (drop 5 (osArgs c))) w1).2,
          [EvLoad name true;
           EvCall name zome function (String.concat " " (drop 5 (osArgs c)))
             (is_nil (Call L name zome function
                        (String.concat " " (drop 5 (osArgs c))) w1).1)]))%nat.
Proof.
  intros Hi Hn Hne Hl. unfold_action. rewrite Hi, Hn. simpl.
  apply String.eqb_neq in Hne. rewrite Hne, Hl. simpl.
  destruct c as [args os]. simpl in *.
  split; intros Hlen.
  - destruct os as [|a0 [|a1 [|a2 [|a3 [|a4 rest]]]]]; simpl in *; try done. lia.
  - destruct os as [|a0 [|a1 [|a2 [|a3 [|a4 rest]]]]]; simpl in *; try lia.
    exists a3, a4. split; [done|]. split; [done|].
    destruct (Call L name a3 a4 _ w1) as [[e|] w2]; done.
Qed.

Lemma call_reads_os_Args_witness :
  call_cmd (ScriptLib all_nil) alice_globals alice_context tt
  = (Panicked, tt, [EvLoad "alice" true]).
Proof.
  apply (proj1 (call_reads_os_Args (ScriptLib all_nil) alice_globals alice_context
                  tt tt "alice" eq_refl eq_refl ltac:(discriminate) eq_refl)).
  vm_compute. lia.
Defined.

Example call_joins_arguments :
  trace_of (ScriptLib all_nil)
    (call_cmd (ScriptLib all_nil) alice_globals
       {| Args := ["alice"; "zome"; "fn"; "a"; "b"];
          osArgs := ["hc"; "call"; "alice"; "zome"; "fn"; "a"; "b"] |} tt)
  = [EvLoad "alice" true; EvCall "alice" "zome" "fn" "a b" true].
Proof. reflexivity. Qed.

(** X6. [dev] generates configuration files only in one of the formats
    json, yaml and toml: the second argument when there are exactly two
    arguments, and toml for any other number of arguments. *)
Lemma dev_format_action (L : Library) g c (w : World L) p f ok :
  EvGenDev p f ok ∈ trace_of L (dev L g c w) →
  (f = "json" ∨ f = "yaml" ∨ f = "toml") ∧
  (length (Args c) = 2%nat → Args c !! 1%nat = Some f) ∧
  (length (Args c) ≠ 2%nat → f = "toml").
Proof.
  unfold_action; paths; intros Hin.
  all: elem_cases Hin; simplify_eq.
  all: repeat match goal with
       | H : (_ =? _)%nat = true |- _ => apply Nat.eqb_eq in H
       | H : (_ =? _)%nat = false |- _ => apply Nat.eqb_neq in H
       | H : negb _ = false |- _ => apply negb_false_iff in H
       | H : (_ || _) = true |- _ => apply orb_true_iff in H
       | H : _ ∨ _ |- _ => destruct H
       | H : String.eqb _ _ = true |- _ => apply String.eqb_eq in H; subst
       end.
  all: repeat split; auto; try done.
Qed.

Theorem dev_format
    (L : Library) (inv : Invocation) (w : World L) (p f : string) (ok : bool) :
  EvGenDev p f ok ∈ trace_of L (run L inv w) →
  (f = "json" ∨ f = "yaml" ∨ f = "toml") ∧
  (length (Args (context inv)) = 2%nat → Args (context inv) !! 1%nat = Some f) ∧
  (length (Args (context inv)) ≠ 2%nat → f = "toml").
Proof.
  intros Hin. apply run_elem in Hin as [Hb|(g & w1 & _ & Hin & _)]; [done|].
  destruct (command inv) eqn:Hc; simpl in Hin;
    try (revert Hin; unfold_action; paths; intros Hin; elem_cases Hin; by simplify_eq).
  by eapply dev_format_action.
Qed.

Lemma dev_format_witness :
  ("yaml" = "json" ∨ "yaml" = "yaml" ∨ "yaml" = "toml") ∧
  (length (Args (context (invoke (CmdDev false) ["alice"; "yaml"]))) = 2%nat →
     Args (context (invoke (CmdDev false) ["alice"; "yaml"])) !! 1%nat = Some "yaml") ∧
  (length (Args (context (invoke (CmdDev false) ["alice"; "yaml"]))) ≠ 2%nat →
     "yaml" = "toml").
Proof.
  apply (dev_format (ScriptLib all_nil) (invoke (CmdDev false) ["alice"; "yaml"]) tt
           "/holo/alice" "yaml" true).
  vm_compute. in_list.
Defined.

Example dev_rejects_format :
  run (ScriptLib all_nil) (invoke (CmdDev true) ["alice"; "xml"]) tt =
    (Returned (errors_New "gen dev: format must be one of yaml,toml,json"), tt,
     [EvLoadService true]).
Proof. reflexivity. Qed.

Example dev_ignores_third_argument :
  trace_of (ScriptLib all_nil)
    (run (ScriptLib all_nil) (invoke (CmdDev false) ["alice"; "json"; "x"]) tt) =
    [EvLoadService true; EvGenDev "/holo/alice" "toml" true].
Proof. reflexivity. Qed.

(** X7. A chain directory is removed only by [clone] and [dev] under the
    flag [force]; under that flag the removal comes right before the call of
    [Clone] or [GenDev], on the same directory, and that call is made only
    when the removal returned nil. *)
Lemma action_force_removal (L : Library) cmd g c (w : World L) :
  (∀ p ok, EvRemoveAll p ok ∈ trace_of L (action L cmd g c w) →
     force g = true ∧ ((∃ f, cmd = CmdClone f) ∨ (∃ f, cmd = CmdDev f))) ∧
  (∀ pre e post p,
     trace_of L (action L cmd g c w) = pre ++ e :: post →
     (∃ s ok, e = EvClone s p true ok) ∨ (∃ f ok, e = EvGenDev p f ok) →
     force g = true →
     ∃ pre', pre = pre' ++ [EvRemoveAll p true]).
Proof.
  split.
  - intros p ok. destruct cmd; unfold_action; paths; intros Hin.
    all: elem_cases Hin; simplify_eq; eauto.
  - intros pre e post p. destruct cmd; unfold_action; paths; intros Hsplit He Hf.
    all: split_trace.
    all: try (destruct He as [(? & ? & ?)|(? & ? & ?)]; simplify_eq; fail).
    all: try (destruct He as [(? & ? & ?)|(? & ? & ?)]; simplify_eq;
              by eexists []).
    all: try (match goal with F : Forall _ _ |- _ =>
                rewrite ?Forall_app, ?Forall_cons in F end).
    all: destruct He as [(? & ? & ->)|(? & ? & ->)]; simpl in *; tauto.
Qed.

Theorem removal_only_under_force
    (L : Library) (inv : Invocation) (w : World L) :
  (∀ p ok, EvRemoveAll p ok ∈ trace_of L (run L inv w) →
     command inv = CmdClone true ∨ command inv = CmdDev true) ∧
  (∀ pre e post p,
     trace_of L (run L inv w) = pre ++ e :: post →
     (∃ s ok, e = EvClone s p true ok) ∨ (∃ f ok, e = EvGenDev p f ok) →
     force_of (command inv) = true →
     ∃ pre', pre = pre' ++ [EvRemoveAll p true]).
Proof.
  split.
  - intros p ok Hin. apply run_elem in Hin as [Hb|(g & w1 & Hf & Hin & _)]; [done|].
    apply action_force_removal in Hin as [Hg [[f Hc]|[f Hc]]];
      rewrite Hc in *; simpl in Hf; [left|right]; congruence.
  - intros pre e post p Htr He Hf.
    apply run_split_globals in Htr
      as (g & w1 & tb & pre2 & _ & Hg & _ & -> & Hact & _).
    + rewrite Hf in Hg.
      destruct (proj2 (action_force_removal L _ g _ w1) _ _ _ p Hact He Hg)
        as (pre' & ->).
      exists (tb ++ pre'). by rewrite app_assoc.
    + destruct He as [(? & ? & ->)|(? & ? & ->)]; simpl; tauto.
Qed.

Lemma removal_only_under_force_witness :
  ∃ pre', [EvLoadService true; EvRemoveAll "/holo/alice" true]
          = pre' ++ [EvRemoveAll "/holo/alice" true].
Proof.
  apply (proj2 (removal_only_under_force (ScriptLib all_nil)
                  (invoke (CmdClone true) ["/src/app"; "alice"]) tt)
           [EvLoadService true; EvRemoveAll "/holo/alice" true]
           (EvClone "/src/app" "/holo/alice" true true) [] "/holo/alice").
  - reflexivity.
  - left. by eexists _, _.
  - reflexivity.
Defined.

(** X8. Every directory a run removes or writes is the directory of the
    service ([--path], else [HOLOPATH], else the home directory with the
    default name), a slash, and the argument that names the chain: the
    second argument for [clone] and [join], the first for [dev]. *)
Lemma action_written_path (L : Library) cmd g c (w : World L) e p :
  e ∈ trace_of L (action L cmd g c w) →
  written_path e = Some p →
  ∃ name, new_chain_name cmd c = Some name ∧ p = root g +:+ "/" +:+ name.
Proof.
  destruct cmd; unfold_action; unfold uninitialized; paths; intros Hin Hp.
  all: elem_cases Hin; simplify_eq/=; eauto.
  all: match goal with
       | F : Forall _ ?t, H : _ ∈ ?t |- _ =>
           rewrite Forall_forall in F; apply F in H; by destruct e
       end.
Qed.

Theorem written_paths_under_root
    (L : Library) (inv : Invocation) (w : World L) (e : Event) (p : string) :
  e ∈ trace_of L (run L inv w) →
  written_path e = Some p →
  ∃ name, new_chain_name (command inv) (context inv) = Some name ∧
          p = resolved_root L inv +:+ "/" +:+ name.
Proof.
  intros Hin Hp.
  apply run_elem_globals in Hin as (g & w1 & Hroot & _ & _ & Hin & _).
  - rewrite <- Hroot. by eapply action_written_path.
  - destruct e; simplify_eq/=; tauto.
Qed.

Lemma written_paths_under_root_witness :
  ∃ name,
    new_chain_name (command (invoke CmdJoin ["/src/app"; "alice"]))
      (context (invoke CmdJoin ["/src/app"; "alice"])) = Some name ∧
    "/holo/alice"
    = resolved_root (ScriptLib all_nil) (invoke CmdJoin ["/src/app"; "alice"])
      +:+ "/" +:+ name.
Proof.
  apply (written_paths_under_root (ScriptLib all_nil)
           (invoke CmdJoin ["/src/app"; "alice"]) tt
           (EvClone "/src/app" "/holo/alice" false true) "/holo/alice").
  - vm_compute. in_list.
  - reflexivity.
Defined.

Example path_flag_wins :
  resolved_root (ScriptLib all_nil)
    {| env := {| HOLOPATH := "/holo"; user_Current := ("/home/u", None) |};
       flag_verbose := false; flag_path := "/tmp/hc"; command := CmdStatus;
       context := {| Args := []; osArgs := [] |} |} = "/tmp/hc"
  ∧ resolved_root (ScriptLib all_nil)
    {| env := {| HOLOPATH := ""; user_Current := ("/home/u", None) |};
       flag_verbose := false; flag_path := ""; command := CmdStatus;
       context := {| Args := []; osArgs := [] |} |} = "/home/u/.holochain".
Proof. split; reflexivity. Qed.

(** The lines of [listChains]: one for each chain, made from what [ID]
    returned for that chain. *)
Lemma listChains_loop_lines (L : Library) chains (w : World L) :
  map fst (chain_lines (trace_of L (listChains_loop L chains w))) = chains ∧
  (∀ pre k b e post,
    trace_of L (listChains_loop L chains w) = pre ++ EvID k b :: e :: post →
    ∃ w1 id err w2,
      ID L k w1 = ((id, err), w2) ∧ b = is_nil err ∧
      e = EvChainLine k (if is_nil err then HashString L id else "<not-started>")) ∧
  ((∀ k w', (ID L k w').2 = w') →
   chain_lines (trace_of L (listChains_loop L chains w)) =
     map (λ k, (k, if is_nil (ID L k w).1.2 then HashString L (ID L k w).1.1
                   else "<not-started>")) chains).
Proof.
  revert w. induction chains as [|k ks IH]; intros w.
  - split; [done|]. split; [|done]. intros pre k b e post Htr. by destruct pre.
  - cbn [listChains_loop]. unfold trace_of, mbind, M_bind, call2, emit.
    destruct (ID L k w) as [[id err] w1] eqn:Hid.
    destruct (IH w1) as (IH1 & IH2 & IH3).
    destruct (listChains_loop L ks w1) as [[u w2] t]. unfold trace_of in *.
    simpl in *. split; [by rewrite IH1|]. split.
    + intros pre k' b e post Htr.
      destruct pre as [|x [|y pre]]; simplify_eq/=.
      * by exists w, id, err, w1.
      * by eapply IH2.
    + intros Hro. specialize (Hro k w) as Hw. rewrite Hid in Hw. simpl in Hw.
      subst w1. rewrite (IH3 Hro), Hid. done.
Qed.

(** X9. On an initialized service [status] returns nil and prints one line
    for each configured chain, in the order of the range.  Each line comes
    right after a call of [ID] on that chain and is made from what that
    call returned: ["<not-started>"] when the error is not nil, the
    returned id as a string when it is.  When [ID] leaves the world as it
    is, the lines are those of [ID] on each configured chain in the world
    in which [status] started. *)
Theorem status_lists_chains
    (L : Library) (g : Globals) (c : Context) (w : World L) :
  initialized g = true →
  result_of L (status L g c w) = Returned None ∧
  map fst (chain_lines (trace_of L (status L g c w)))
    = ConfiguredChains L (service g) w ∧
  (∀ pre k b e post,
    trace_of L (status L g c w) = pre ++ EvID k b :: e :: post →
    ∃ w1 id err w2,
      ID L k w1 = ((id, err), w2) ∧ b = is_nil err ∧
      e = EvChainLine k (if is_nil err then HashString L id else "<not-started>")) ∧
  ((∀ k w', (ID L k w').2 = w') →
   chain_lines (trace_of L (status L g c w)) =
     map (λ k, (k, if is_nil (ID L k w).1.2 then HashString L (ID L k w).1.1
                   else "<not-started>"))
       (ConfiguredChains L (service g) w)).
Proof.
  intros Hi. unfold status, listChains. rewrite Hi. unfold_M. simpl.
  destruct (listChains_loop_lines L (ConfiguredChains L (service g) w) w)
    as (H1 & H2 & H3).
  destruct (listChains_loop L _ w) as [[u w1] t]. unfold trace_of in *.
  simpl in *. rewrite app_nil_r. split; [done|]. split; [done|]. split; [|done].
  intros pre k b e post Htr. destruct pre as [|x pre]; simplify_eq/=.
  by eapply H2.
Qed.

Lemma status_lists_chains_witness :
  chain_lines (trace_of two_chains (status two_chains alice_globals alice_context tt))
  = [("alice", "QmId"); ("bob", "<not-started>")].
Proof.
  apply (proj2 (proj2 (proj2 (status_lists_chains two_chains alice_globals
                                alice_context tt eq_refl)))).
  intros k w'. simpl. by destruct (String.eqb k "alice").
Defined.

(** X10. [test] never returns nil: whatever the library answers, a run of
    [test] ends with a non-nil error or, when [app.Before] fails, with the
    error of [app.Before]. *)
Lemma test_action_never_nil (L : Library) g c (w : World L) :
  ∃ e, result_of L (test L g c w) = Returned (Some e).
Proof.
  unfold_action; unfold uninitialized, errors_New; paths; by eexists.
Qed.

Theorem test_never_returns_nil
    (L : Library) (inv : Invocation) (w : World L) (f : bool) :
  command inv = CmdTest f →
  ∃ e, result_of L (run L inv w) = Returned (Some e).
Proof.
  intros Hc.
  destruct (run_action L inv w) as (tb & _ & [(x & w' & ->)|(g & w1 & _ & ->)]).
  - by eexists.
  - rewrite Hc. simpl.
    destruct (test_action_never_nil L g (context inv) w1) as [e He].
    destruct (test L g _ w1) as [[r w2] ta]. unfold result_of in *. simpl in *.
    by eexists.
Qed.

Lemma test_never_returns_nil_witness :
  ∃ e, result_of (ScriptLib all_nil)
         (run (ScriptLib all_nil) (invoke (CmdTest true) ["alice"]) tt)
       = Returned (Some e).
Proof.
  apply (test_never_returns_nil (ScriptLib all_nil)
           (invoke (CmdTest true) ["alice"]) tt true).
  reflexivity.
Defined.

Example status_two_chains :
  chain_lines (trace_of two_chains (status two_chains alice_globals alice_context tt))
  = [("alice", "QmId"); ("bob", "<not-started>")].
Proof. reflexivity. Qed.

(** X11. Each operation of the library is called by the commands that name
    it and by no other: the DNA hashes are computed by [seed], [join] and
    [gen chain] only, the genesis is generated by [join] and [gen chain]
    only, gossip and the web server are started by [serve] only, the chain is
    walked by [dump] only, and so on for every operation. *)
Lemma action_may_call (L : Library) cmd g c (w : World L) e :
  e ∈ trace_of L (action L cmd g c w) → may_call cmd e.
Proof.
  destruct cmd; unfold_action; paths; intros Hin.
  all: elem_cases Hin; simplify_eq/=; eauto 6.
  all: match goal with
       | F : Forall _ ?t, H : _ ∈ ?t |- _ =>
           rewrite Forall_forall in F; apply F in H; destruct e; simpl in *; auto; done
       end.
Qed.

Theorem operations_by_command
    (L : Library) (inv : Invocation) (w : World L) (e : Event) :
  e ∈ trace_of L (run L inv w) → may_call (command inv) e.
Proof.
  intros Hin. apply run_elem in Hin as [Hb|(g & w1 & _ & Hin & _)].
  - by destruct e.
  - by eapply action_may_call.
Qed.

Lemma operations_by_command_witness :
  may_call (command (invoke CmdServe ["alice"])) (EvGoGossip "alice" 2000000000).
Proof.
  apply (operations_by_command (ScriptLib all_nil) (invoke CmdServe ["alice"]) tt).
  vm_compute. in_list.
Defined.

(** X12. [genChain] returns nil exactly when its five calls ([Load],
    [GenDNAHashes], [Activate], [GenChain], [ID]) all return nil, in this
    order, with [HandlePutReqs] started between [GenChain] and [ID]; and
    [HandlePutReqs] is started exactly when [GenChain] returned nil, also
    in a run that then returns the error of [ID]. *)
Theorem genChain_succeeds_iff
    (L : Library) (s : Service) (name : string) (w : World L) :
  (result_of L (genChain L s name w) = None ↔
   trace_of L (genChain L s name w) =
     [EvLoad name true; EvGenDNAHashes name true; EvActivate name true;
      EvGenChain name true; EvGoHandlePutReqs name; EvID name true]) ∧
  (EvGoHandlePutReqs name ∈ trace_of L (genChain L s name w) ↔
   EvGenChain name true ∈ trace_of L (genChain L s name w)).
Proof.
  unfold genChain. unfold_M.
  repeat (simpl; case_match; simplify_eq/=); simpl.
  all: split; split; intros Hx; try done; try (elem_cases Hx; by simplify_eq);
       try in_list.
Qed.

Example genChain_started_then_failed :
  run (ScriptLib (ID_fails {| Kind := None; Error := uninitialized_id_text |}))
      (invoke CmdGenChain ["alice"]) tt
  = (Returned (Some {| Kind := None; Error := uninitialized_id_text |}), tt,
     [EvLoadService true; EvLoad "alice" true; EvGenDNAHashes "alice" true;
      EvActivate "alice" true; EvGenChain "alice" true;
      EvGoHandlePutReqs "alice"; EvID "alice" false]).
Proof. reflexivity. Qed.

(** X13. [dump] walks the chain with [true] as second argument and does not
    look at the error [Walk] returns: a run of [dump] that reached the walk
    returns nil, or panics in the print loop, also when [Walk] failed. *)
Lemma dump_loop_result (L : Library) s js :
  (dump_loop L s js).2 = Returned None ∨ (dump_loop L s js).2 = Panicked.
Proof.
  induction js as [|j js IH]; [by left|].
  rewrite dump_loop_cons. simpl. destruct (render L _ _); [|by right].
  by destruct (dump_loop L s js).
Qed.

Lemma dump_action_drops_Walk_error (L : Library) g c (w : World L) h et ok :
  EvWalk h et ok ∈ trace_of L (dump L g c w) →
  et = true ∧
  (result_of L (dump L g c w) = Returned None ∨
   result_of L (dump L g c w) = Panicked).
Proof.
  unfold_action; repeat (simpl; case_match; simplify_eq/=); simpl; intros Hin.
  all: try (elem_cases Hin; by simplify_eq).
  all: match goal with
       | H : dump_loop ?L ?s ?js = (_, _) |- _ =>
           pose proof (dump_loop_result L s js) as Hr; rewrite H in Hr;
           pose proof (dump_loop_lines L s js) as Hl; rewrite H in Hl
       end; simpl in *.
  all: split; [|done].
  all: elem_cases Hin; simplify_eq; try done.
  all: rewrite Forall_forall in Hl; by apply Hl in Hin.
Qed.

Theorem dump_drops_the_error_of_Walk
    (L : Library) (inv : Invocation) (w : World L) (h : string) (et ok : bool) :
  command inv = CmdDump →
  EvWalk h et ok ∈ trace_of L (run L inv w) →
  et = true ∧
  (result_of L (run L inv w) = Returned None ∨
   result_of L (run L inv w) = Panicked).
Proof.
  intros Hc Hin. apply run_elem in Hin as [Hb|(g & w1 & _ & Hin & ->)]; [done|].
  rewrite Hc in *. simpl in *. by eapply dump_action_drops_Walk_error.
Qed.

Lemma dump_drops_the_error_of_Walk_witness :
  true = true ∧
  (result_of (ScriptLib (walks [] (Some {| Kind := Some CorruptChainError; Error := "corrupt" |})))
     (run (ScriptLib (walks [] (Some {| Kind := Some CorruptChainError; Error := "corrupt" |})))
        (invoke CmdDump ["alice"]) tt) = Returned None ∨
   result_of (ScriptLib (walks [] (Some {| Kind := Some CorruptChainError; Error := "corrupt" |})))
     (run (ScriptLib (walks [] (Some {| Kind := Some CorruptChainError; Error := "corrupt" |})))
        (invoke CmdDump ["alice"]) tt) = Panicked).
Proof.
  apply (dump_drops_the_error_of_Walk
           (ScriptLib (walks [] (Some {| Kind := Some CorruptChainError; Error := "corrupt" |})))
           (invoke CmdDump ["alice"]) tt "alice" true false).
  - reflexivity.
  - vm_compute. in_list.
Defined.

Example dump_after_failed_walk :
  run (ScriptLib (walks [] (Some {| Kind := Some CorruptChainError; Error := "corrupt" |})))
      (invoke CmdDump ["alice"]) tt
  = (Returned None, tt,
     [EvLoadService true; EvLoad "alice" true; EvID "alice" true;
      EvDumpChain "QmId"; EvWalk "alice" true false]).
Proof. reflexivity. Qed.

(** X14. [dump] keeps the headers by key and the entries by position: when
    the walk hands the callback the same key more than once, each of these
    items is printed with the header of the last visit under that key, and
    with its own entry. *)
Lemma feed_links (L : Library) vs s ks :
  links (feed (dump_visit L) vs s) !! ks =
    match last_header L vs ks with
    | Some h => Some h
    | None => links s !! ks
    end.
Proof.
  revert s. induction vs as [|[[k hdr] e] vs IH]; intros s; [done|].
  simpl. rewrite IH. simpl. destruct (last_header L vs ks); [done|].
  destruct (String.eqb_spec (HashString L k) ks) as [->|Hne].
  - by rewrite lookup_insert_eq.
  - by rewrite lookup_insert_ne.
Qed.

Lemma last_header_elem (L : Library) vs (v : Visit) :
  v ∈ vs → is_Some (last_header L vs (HashString L v.1.1)).
Proof.
  induction vs as [|[[k hdr] e] vs IH]; intros Hin; [by apply elem_of_nil in Hin|].
  simpl. apply elem_of_cons in Hin as [->|Hin].
  - simpl. destruct (last_header L vs _); [by eexists|].
    rewrite String.eqb_refl. by eexists.
  - destruct (IH Hin) as [h ->]. by eexists.
Qed.

Theorem dump_prints_last_header (L : Library) (vs : list Visit) :
  dump_loop L (feed (dump_visit L) vs dump_init)
    (seq 0 (idx (feed (dump_visit L) vs dump_init)))
  = print_visits L
      (map (λ v : Visit,
              (v.1.1, default v.1.2 (last_header L vs (HashString L v.1.1)), v.2))
         vs).
Proof.
  destruct (feed_dump_visit L vs dump_init) as (Hidx & _ & _ & Hat & _).
  simpl in *. rewrite Hidx.
  rewrite <- (length_map (λ v : Visit,
              (v.1.1, default v.1.2 (last_header L vs (HashString L v.1.1)), v.2)) vs).
  apply dump_loop_print. intros i v' Hv'.
  rewrite list_lookup_fmap in Hv'.
  destruct (vs !! i) as [v|] eqn:Hv; simplify_eq/=.
  destruct (Hat i v Hv) as [H1 H2]. split; [done|]. split; [done|].
  rewrite feed_links.
  destruct (last_header_elem L vs v) as [h Hh]; [by eapply list_elem_of_lookup_2|].
  by rewrite Hh.
Qed.

Example dump_same_key_twice :
  (dump_loop (ScriptLib all_nil) (feed (dump_visit (ScriptLib all_nil)) twice dump_init)
     (seq 0 2)).1
  = [EvDumpHeader "h1" (mkHeader "note" 2 None None "e2");
     EvDumpEntry (Generic (EntryOther "first"));
     EvDumpHeader "h1" (mkHeader "note" 2 None None "e2");
     EvDumpEntry (Generic (EntryOther "second"))].
Proof. reflexivity. Qed.

(** X15. The print loop of [dump] panics exactly when some visited header
    has the type of DNA entries with an entry that is not a byte slice, or
    the type of key entries with an entry that is not a key entry (when the
    walk visits no header twice). *)
Lemma render_None (L : Library) hdr e :
  render L hdr e = None ↔
  (Type' hdr = DNAEntryType L ∧ ∀ b, e ≠ EntryBytes b) ∨
  (Type' hdr ≠ DNAEntryType L ∧ Type' hdr = KeyEntryType L ∧ ∀ k, e ≠ EntryKey k).
Proof.
  unfold render.
  destruct (String.eqb_spec (Type' hdr) (DNAEntryType L)) as [Hd|Hd].
  - destruct e; split; try done; try (intros _; left; by split);
      intros [[_ H]|[H _]]; try done; by destruct (H b).
  - destruct (String.eqb_spec (Type' hdr) (KeyEntryType L)) as [Hk|Hk].
    + destruct e; split; try done; try (intros _; right; by repeat split);
        intros [[H _]|(_ & _ & H)]; try done; by destruct (H k).
    + split; [done|]. intros [[H _]|(_ & H & _)]; done.
Qed.

Lemma print_visits_panics (L : Library) vs :
  (print_visits L vs).2 = Panicked ↔
  Exists (λ v : Visit, render L v.1.2 v.2 = None) vs.
Proof.
  induction vs as [|[[k hdr] e] vs IH]; simpl.
  - split; [done|]. intros H. inversion H.
  - rewrite Exists_cons. simpl. destruct (render L hdr e) eqn:Hr.
    + destruct (print_visits L vs) as [evs res]. simpl in *. rewrite IH.
      split; [by right|]. by intros [?|?].
    + split; [by left|done].
Qed.

Theorem dump_panics_iff (L : Library) (vs : list Visit) :
  NoDup (map (λ v : Visit, HashString L v.1.1) vs) →
  (dump_loop L (feed (dump_visit L) vs dump_init)
     (seq 0 (idx (feed (dump_visit L) vs dump_init)))).2 = Panicked ↔
  Exists (λ v : Visit,
    (Type' v.1.2 = DNAEntryType L ∧ ∀ b, v.2 ≠ EntryBytes b) ∨
    (Type' v.1.2 ≠ DNAEntryType L ∧ Type' v.1.2 = KeyEntryType L ∧
     ∀ k, v.2 ≠ EntryKey k)) vs.
Proof.
  intros Hnd. rewrite (dump_prints_visits L vs Hnd), print_visits_panics.
  apply Exists_proper; [|done]. intros v. apply render_None.
Qed.

Lemma dump_panics_iff_witness :
  (dump_loop (ScriptLib all_nil)
     (feed (dump_visit (ScriptLib all_nil))
        [("h1", mkHeader "DNA" 1 None None "e1", EntryOther "x")] dump_init)
     (seq 0 (idx (feed (dump_visit (ScriptLib all_nil))
        [("h1", mkHeader "DNA" 1 None None "e1", EntryOther "x")] dump_init)))).2
    = Panicked ↔
  Exists (λ v : Visit,
    (Type' v.1.2 = DNAEntryType (ScriptLib all_nil) ∧ ∀ b, v.2 ≠ EntryBytes b) ∨
    (Type' v.1.2 ≠ DNAEntryType (ScriptLib all_nil) ∧
     Type' v.1.2 = KeyEntryType (ScriptLib all_nil) ∧
     ∀ k, v.2 ≠ EntryKey k))
    [("h1", mkHeader "DNA" 1 None None "e1", EntryOther "x")].
Proof.
  apply (dump_panics_iff (ScriptLib all_nil)
           [("h1", mkHeader "DNA" 1 None None "e1", EntryOther "x")]).
  vm_compute. apply (bool_decide_unpack (NoDup ["h1"])). vm_compute. exact I.
Defined.

Example dump_panics_on_DNA_header :
  run (ScriptLib (walks [("h1", mkHeader "DNA" 1 None None "e1", EntryOther "x")] None))
      (invoke CmdDump ["alice"]) tt
  = (Panicked, tt,
     [EvLoadService true; EvLoad "alice" true; EvID "alice" true;
      EvDumpChain "QmId"; EvWalk "alice" true true;
      EvDumpHeader "h1" (mkHeader "DNA" 1 None None "e1")]).
Proof. reflexivity. Qed.

(** The path [dev] hands to [os.RemoveAll]. *)
Lemma dev_removal_action (L : Library) g c (w : World L) p ok :
  EvRemoveAll p ok ∈ trace_of L (dev L g c w) →
  First (Args c) ≠ "" ∧ p = root g +:+ "/" +:+ First (Args c).
Proof.
  unfold_action; unfold uninitialized; paths; intros Hin.
  all: elem_cases Hin; simplify_eq.
  all: split; try reflexivity.
  all: match goal with H : String.eqb (First _) "" = false |- _ =>
         apply String.eqb_neq in H; exact H end.
Qed.

Lemma dev_removal_not_root (L : Library) g c (w : World L) p ok :
  EvRemoveAll p ok ∈ trace_of L (dev L g c w) →
  First (Args c) ≠ "" ∧ p = root g +:+ "/" +:+ First (Args c) ∧
  p ≠ root g +:+ "/".
Proof.
  intros Hin. destruct (dev_removal_action L g c w p ok Hin) as [Hne ->].
  split; [done|]. split; [done|]. intros Heq.
  assert (root g +:+ "/" +:+ First (Args c) = root g +:+ "/" +:+ "") as Heq' by done.
  apply (inj (String.app (root g))) in Heq'.
  apply (inj (String.app "/")) in Heq'. done.
Qed.

Lemma string_app_nil_r (s : string) : s +:+ "" = s.
Proof.
  induction s as [|a s IH]; [done|].
  change (String a (s +:+ "") = String a s). by rewrite IH.
Qed.

(** X16. [dev] calls [os.RemoveAll] only under [force] and only on the
    string made of the directory of the service, a slash and its first
    argument, which is not empty: as a string, the path is neither the
    directory of the service nor that directory followed by a slash.  The
    name is handed on as it is written. *)
Theorem dev_removes_a_named_chain
    (L : Library) (inv : Invocation) (w : World L) (f : bool) (p : string)
    (ok : bool) :
  command inv = CmdDev f →
  EvRemoveAll p ok ∈ trace_of L (run L inv w) →
  f = true ∧
  First (Args (context inv)) ≠ "" ∧
  p = resolved_root L inv +:+ "/" +:+ First (Args (context inv)) ∧
  p ≠ resolved_root L inv +:+ "/" ∧
  p ≠ resolved_root L inv.
Proof.
  intros Hc Hin.
  apply run_elem_globals in Hin as (g & w1 & Hroot & Hf & _ & Hin & _); [|simpl; tauto].
  rewrite Hc in Hin, Hf. simpl in Hin, Hf. rewrite <- Hroot.
  destruct (dev_removal_not_root L g (context inv) w1 p ok Hin) as (Hne & -> & Hs).
  split.
  { destruct (force g) eqn:Hfg; [done|]. exfalso. revert Hin.
    unfold_action; unfold uninitialized; rewrite Hfg; paths; intros Hin.
    all: elem_cases Hin. }
  split; [done|]. split; [done|]. split; [done|].
  intros Heq. rewrite <- (string_app_nil_r (root g)) in Heq at 2.
  apply (inj (String.app (root g))) in Heq. discriminate Heq.
Qed.

Lemma dev_removes_a_named_chain_witness :
  true = true ∧
  First (Args (context (invoke (CmdDev true) ["alice"]))) ≠ "" ∧
  "/holo/alice"
  = resolved_root (ScriptLib all_nil) (invoke (CmdDev true) ["alice"])
    +:+ "/" +:+ First (Args (context (invoke (CmdDev true) ["alice"]))) ∧
  "/holo/alice"
  ≠ resolved_root (ScriptLib all_nil) (invoke (CmdDev true) ["alice"]) +:+ "/" ∧
  "/holo/alice"
  ≠ resolved_root (ScriptLib all_nil) (invoke (CmdDev true) ["alice"]).
Proof.
  apply (dev_removes_a_named_chain (ScriptLib all_nil)
           (invoke (CmdDev true) ["alice"]) tt true "/holo/alice" true).
  - reflexivity.
  - vm_compute. in_list.
Defined.

(** [dev] hands the name on as it is: it does not clean it, and a name
    made of path elements is removed as written. *)
Example dev_does_not_clean_the_name :
  trace_of (ScriptLib all_nil)
    (run (ScriptLib all_nil) (invoke (CmdDev true) ["x/.."]) tt)
  = [EvLoadService true; EvRemoveAll "/holo/x/.." true;
     EvGenDev "/holo/x/.." "toml" true].
Proof. reflexivity. Qed.

(** [clone] does not look at the name: with an empty second argument and
    [force] it removes the directory of the service. *)
Example clone_empty_name :
  trace_of (ScriptLib all_nil)
    (run (ScriptLib all_nil) (invoke (CmdClone true) ["/src/app"; ""]) tt)
  = [EvLoadService true; EvRemoveAll "/holo/" true;
     EvClone "/src/app" "/holo/" true true].
Proof. reflexivity. Qed.

(** X17. A run works on one chain only: every operation on a chain, other
    than the calls of [ID] by which [status] and a run without command list
    the chains, is on the chain the command line names, and that name is not
    empty (for [join], whose name is the second argument, it may be). *)
Lemma action_one_chain (L : Library) cmd g c (w : World L) e h :
  e ∈ trace_of L (action L cmd g c w) →
  handle_of e = Some h →
  cmd = CmdStatus ∨ cmd = CmdNone ∨
  (chain_argument cmd c = Some h ∧ (cmd ≠ CmdJoin → h ≠ "")).
Proof.
  destruct cmd; unfold_action; unfold uninitialized; paths; intros Hin Hh.
  all: auto.
  all: elem_cases Hin; simplify_eq/=.
  all: try (match goal with
            | F : Forall _ ?t, H : ?x ∈ ?t |- _ =>
                rewrite Forall_forall in F; apply F in H; by destruct x
            end).
  all: right; right; split; try reflexivity; try eassumption.
  all: try (intros Hj;
            match goal with H : String.eqb (First _) "" = false |- _ =>
              apply String.eqb_neq in H; exact H end).
  all: try (intros Hj; by destruct Hj).
Qed.

Theorem run_one_chain
    (L : Library) (inv : Invocation) (w : World L) (e : Event) (h : string) :
  e ∈ trace_of L (run L inv w) →
  handle_of e = Some h →
  command inv = CmdStatus ∨ command inv = CmdNone ∨
  (chain_argument (command inv) (context inv) = Some h ∧
   (command inv ≠ CmdJoin → h ≠ "")).
Proof.
  intros Hin Hh. apply run_elem in Hin as [Hb|(g & w1 & _ & Hin & _)].
  - by destruct e.
  - by eapply action_one_chain.
Qed.

Lemma run_one_chain_witness :
  command (invoke CmdServe ["alice"]) = CmdStatus
  ∨ command (invoke CmdServe ["alice"]) = CmdNone
  ∨ (chain_argument (command (invoke CmdServe ["alice"]))
       (context (invoke CmdServe ["alice"])) = Some "alice" ∧
     (command (invoke CmdServe ["alice"]) ≠ CmdJoin → "alice" ≠ "")).
Proof.
  apply (run_one_chain (ScriptLib all_nil) (invoke CmdServe ["alice"]) tt
           (EvActivate "alice" true) "alice").
  - vm_compute. in_list.
  - reflexivity.
Defined.
